(** * Incidents: automation for the #incidents channel

    A shallow embedding of [bot/cogs/moderation/incidents.py] and the
    properties of its classification helpers, of [add_signals], of the
    start-up crawl, of [resolve_message] and of the [on_message] listener.

    The pure helpers are Rocq functions over a record of the message
    attributes they read.  The coroutines are trees of the suspension points
    they go through ([Prog]); they are run against an arbitrary platform,
    which answers every awaited request and may change the message objects
    while the coroutine is suspended. *)

From Stdlib Require Import ZArith Ascii String List.
From stdpp Require Import base decidable option list gmap strings.

Set Warnings "-clear-no-such-hyp".

Open Scope Z_scope.
Open Scope string_scope.
Open Scope list_scope.

(** ** Configuration ([bot.constants]) *)

(** The constants the module imports: [Channels.incidents], the three
    [Emojis.incident_*] values and the three [Roles.*] identifiers. *)
Record Config := {
  Channels_incidents : Z;
  Emojis_incident_actioned : string;
  Emojis_incident_unactioned : string;
  Emojis_incident_investigating : string;
  Roles_moderators : Z;
  Roles_admins : Z;
  Roles_owners : Z
}.

(** ** Messages ([discord.Message]) *)

(** A [discord.Reaction]: [emoji] is [str(reaction.emoji)], [me] tells whether
    the bot itself placed the reaction. *)
Record Reaction := {
  emoji : string;
  me : bool
}.

(** The attributes of a [discord.Message] that the module reads:
    [message.id], [message.channel.id], [message.author.bot],
    [message.content], [message.pinned] and [message.reactions]. *)
Record Message := {
  message_id : Z;
  channel_id : Z;
  author_bot : bool;
  content : string;
  pinned : bool;
  reactions : list Reaction
}.

Definition with_channel (ch : Z) (m : Message) : Message :=
  {| message_id := message_id m; channel_id := ch; author_bot := author_bot m;
     content := content m; pinned := pinned m; reactions := reactions m |}.

Definition with_author_bot (b : bool) (m : Message) : Message :=
  {| message_id := message_id m; channel_id := channel_id m; author_bot := b;
     content := content m; pinned := pinned m; reactions := reactions m |}.

Definition with_content (s : string) (m : Message) : Message :=
  {| message_id := message_id m; channel_id := channel_id m;
     author_bot := author_bot m; content := s; pinned := pinned m;
     reactions := reactions m |}.

Definition with_pinned (b : bool) (m : Message) : Message :=
  {| message_id := message_id m; channel_id := channel_id m;
     author_bot := author_bot m; content := content m; pinned := b;
     reactions := reactions m |}.

Definition with_reactions (rs : list Reaction) (m : Message) : Message :=
  {| message_id := message_id m; channel_id := channel_id m;
     author_bot := author_bot m; content := content m; pinned := pinned m;
     reactions := rs |}.

(** [s.startswith(p)] *)
Definition startswith (s p : string) : bool := String.prefix p s.

(** ** [class Signal(Enum)] *)

Inductive Signal := ACTIONED | NOT_ACTIONED | INVESTIGATING.

#[global] Instance Signal_eq_dec : EqDecision Signal.
Proof. solve_decision. Defined.

(** [signal.value] *)
Definition Signal_value (c : Config) (s : Signal) : string :=
  match s with
  | ACTIONED => Emojis_incident_actioned c
  | NOT_ACTIONED => Emojis_incident_unactioned c
  | INVESTIGATING => Emojis_incident_investigating c
  end.

(** The names of the class body, in definition order. *)
Definition Signal_declared : list Signal :=
  [ACTIONED; NOT_ACTIONED; INVESTIGATING].

(** A name whose value was already given to an earlier name is an alias of
    that member, and iterating an [Enum] leaves aliases out. *)
Fixpoint enum_members (c : Config) (seen : list string) (decl : list Signal)
  : list Signal :=
  match decl with
  | [] => []
  | s :: rest =>
      if bool_decide (Signal_value c s ∈ seen)
      then enum_members c seen rest
      else s :: enum_members c (Signal_value c s :: seen) rest
  end.

(** [for signal in Signal] *)
Definition Signal_members (c : Config) : list Signal :=
  enum_members c [] Signal_declared.

(** The three configured emoji are pairwise different. *)
Definition emoji_distinct (c : Config) : Prop :=
  Emojis_incident_actioned c ≠ Emojis_incident_unactioned c ∧
  Emojis_incident_actioned c ≠ Emojis_incident_investigating c ∧
  Emojis_incident_unactioned c ≠ Emojis_incident_investigating c.

(** ** Module constants *)

Definition ALLOWED_ROLES (c : Config) : gset Z :=
  {[ Roles_moderators c; Roles_admins c; Roles_owners c ]}.

Definition ALLOWED_EMOJI (c : Config) : gset string :=
  list_to_set (map (Signal_value c) (Signal_members c)).

(** ** The pure helpers *)

Definition is_incident (c : Config) (message : Message) : bool :=
  let conditions :=
    [ Z.eqb (channel_id message) (Channels_incidents c);
      negb (author_bot message);
      negb (startswith (content message) "#");
      negb (pinned message) ] in
  forallb id conditions.

Definition own_reactions (message : Message) : gset string :=
  list_to_set (map emoji (filter (fun reaction => me reaction = true)
                                 (reactions message))).

Definition has_signals (c : Config) (message : Message) : bool :=
  let missing_signals := ALLOWED_EMOJI c ∖ own_reactions message in
  bool_decide (missing_signals = ∅).

(** ** Exceptions *)

(** What an awaited request may raise.  [CancelledError] and the classes under
    [OtherBaseException] derive from [BaseException] only; every other
    constructor is a subclass of [Exception]. *)
Inductive Exn :=
| NotFound
| Forbidden
| HTTPException (status : Z)
| ClientError
| TimeoutError
| AttributeError
| OtherException (name : string)
| CancelledError
| OtherBaseException (name : string).

(** [isinstance(exc, Exception)] *)
Definition isinstance_Exception (exc : Exn) : bool :=
  match exc with
  | CancelledError | OtherBaseException _ => false
  | _ => true
  end.

(** ** The runtime the coroutines see *)

(** A [discord.Message] object is shared with the client library, which
    updates its attributes while a coroutine is suspended; a coroutine holds
    a reference to the object, not a copy of it. *)
Definition MsgRef := nat.

(** What the coroutines read without suspending: the attributes of every
    message object, the message cache of the connection (by message id) and
    the channels of the cache. *)
Record World := {
  objects : MsgRef -> Message;
  cached_messages : gmap Z MsgRef;
  cached_channels : gset Z
}.

(** [bot._connection._get_message(message_id)] *)
Definition _get_message (w : World) (id : Z) : option MsgRef :=
  cached_messages w !! id.

(** [bot.get_channel(channel_id)]: the channel, named by its id, or [None]. *)
Definition get_channel (w : World) (id : Z) : option Z :=
  if bool_decide (id ∈ cached_channels w) then Some id else None.

(** The awaitables of the client library and of [asyncio]: the readiness
    barrier, [channel.history(limit=...)] (one request for a limit of at most
    100), [message.add_reaction(emoji)], [asyncio.sleep(seconds)],
    [channel.fetch_message(id)] and [event_lock.acquire()]. *)
Inductive Call :=
| wait_until_guild_available
| history (channel : Z) (limit : nat)
| add_reaction (message : MsgRef) (reaction : string)
| sleep (seconds : Z)
| fetch_message (channel : Z) (id : Z)
| event_lock_acquire.

#[global] Instance Call_eq_dec : EqDecision Call.
Proof. solve_decision. Defined.

(** What an awaitable evaluates to when it does not raise. *)
Definition Resp (c : Call) : Type :=
  match c with
  | history _ _ => list MsgRef
  | fetch_message _ _ => MsgRef
  | _ => unit
  end.

(** The coroutines handed to [loop.create_task]. *)
Inductive Coro := Coro_crawl_incidents.

(** A coroutine: it returns, raises, reads the runtime, suspends on an
    awaitable and goes on with what that evaluates to or raises, or schedules
    a task. *)
Inductive Prog (A : Type) : Type :=
| Ret (a : A)
| Raise (e : Exn)
| Read (k : World -> Prog A)
| Await (c : Call) (k : Exn + Resp c -> Prog A)
| CreateTask (t : Coro) (k : Prog A).

Arguments Ret {A} a.
Arguments Raise {A} e.
Arguments Read {A} k.
Arguments Await {A} c k.
Arguments CreateTask {A} t k.

Fixpoint bind {A B : Type} (p : Prog A) (f : A -> Prog B) : Prog B :=
  match p with
  | Ret a => f a
  | Raise e => Raise e
  | Read k => Read (fun w => bind (k w) f)
  | Await c k => Await c (fun r => bind (k r) f)
  | CreateTask t k => CreateTask t (bind k f)
  end.

#[global] Instance Prog_ret : MRet Prog := @Ret.
#[global] Instance Prog_bind : MBind Prog := fun A B f p => bind p f.

(** [await c]: an exception of the awaitable is raised in the coroutine. *)
Definition await (c : Call) : Prog (Resp c) :=
  Await c (fun r => match r with inl e => Raise e | inr x => Ret x end).

(** Evaluate [f(message)] on the object as it is now. *)
Definition inspect {A : Type} (f : Message -> A) (message : MsgRef) : Prog A :=
  Read (fun w => Ret (f (objects w message))).

(** [try: body / except <catches> as exc: handler / else: orelse] *)
Fixpoint try_except {A B : Type} (body : Prog A) (catches : Exn -> bool)
    (handler : Exn -> Prog B) (orelse : A -> Prog B) : Prog B :=
  match body with
  | Ret a => orelse a
  | Raise e => if catches e then handler e else Raise e
  | Read k => Read (fun w => try_except (k w) catches handler orelse)
  | Await c k => Await c (fun r => try_except (k r) catches handler orelse)
  | CreateTask t k => CreateTask t (try_except k catches handler orelse)
  end.

(** ** [add_signals] *)

Fixpoint add_signals_loop (c : Config) (incident : MsgRef)
    (existing_reacts : gset string) (signals : list Signal) : Prog unit :=
  match signals with
  | [] => Ret tt
  | signal_emoji :: rest =>
      if bool_decide (Signal_value c signal_emoji ∈ existing_reacts)
      then add_signals_loop c incident existing_reacts rest
      else
        await (add_reaction incident (Signal_value c signal_emoji));;
        add_signals_loop c incident existing_reacts rest
  end.

Definition add_signals (c : Config) (incident : MsgRef) : Prog unit :=
  existing_reacts ← inspect own_reactions incident;
  add_signals_loop c incident existing_reacts (Signal_members c).

(** ** [class Incidents(Cog)] *)

(** [asyncio.Lock]; a new lock is not locked. *)
Record Lock := { locked : bool }.

Definition Lock_new : Lock := {| locked := false |}.

Record Incidents := {
  event_lock : Lock;
  crawl_task : Coro
}.

Definition Incidents__init__ : Prog Incidents :=
  CreateTask Coro_crawl_incidents
    (Ret {| event_lock := Lock_new; crawl_task := Coro_crawl_incidents |}).

Definition crawl_limit : nat := 50.
Definition crawl_sleep : Z := 2.

(** The body of [async for message in incidents.history(limit=limit)]. *)
Fixpoint crawl_loop (c : Config) (messages : list MsgRef) : Prog unit :=
  match messages with
  | [] => Ret tt
  | message :: rest =>
      incident ← inspect (is_incident c) message;
      if negb incident then crawl_loop c rest
      else
        complete ← inspect (has_signals c) message;
        if (complete : bool) then crawl_loop c rest
        else
          add_signals c message;;
          await (sleep crawl_sleep);;
          crawl_loop c rest
  end.

Definition crawl_incidents (c : Config) : Prog unit :=
  await wait_until_guild_available;;
  incidents ← Read (fun w => Ret (get_channel w (Channels_incidents c)));
  match incidents with
  | None => Raise AttributeError
  | Some channel =>
      messages ← await (history channel crawl_limit);
      crawl_loop c messages
  end.

Definition resolve_message (c : Config) (id : Z) : Prog (option MsgRef) :=
  await wait_until_guild_available;;
  message ← Read (fun w => Ret (_get_message w id));
  match message with
  | Some found => Ret (Some found)
  | None =>
      try_except
        (incidents ← Read (fun w => Ret (get_channel w (Channels_incidents c)));
         match incidents with
         | None => Raise AttributeError
         | Some channel => await (fetch_message channel id)
         end)
        isinstance_Exception
        (fun exc => Ret None)
        (fun fetched => Ret (Some fetched))
  end.

Definition on_message (c : Config) (message : MsgRef) : Prog unit :=
  incident ← inspect (is_incident c) message;
  if (incident : bool) then add_signals c message else Ret tt.

(** The coroutine behind each task. *)
Definition coro_body (c : Config) (t : Coro) : Prog unit :=
  match t with
  | Coro_crawl_incidents => crawl_incidents c
  end.

(** ** Running a coroutine against a platform *)

(** What an observer of the connection sees: a request being issued, a
    request completing (with the exception it raised, if any), a task being
    scheduled. *)
Inductive Event :=
| EvCall (c : Call)
| EvDone (c : Call) (failure : option Exn)
| EvTask (t : Coro).

#[global] Instance Exn_eq_dec : EqDecision Exn.
Proof. solve_decision. Defined.

#[global] Instance Coro_eq_dec : EqDecision Coro.
Proof. solve_decision. Defined.

#[global] Instance Event_eq_dec : EqDecision Event.
Proof. solve_decision. Defined.

(** A platform answers each request from a state of its own, and while the
    coroutine is suspended on the request anything may happen to the runtime:
    other tasks run and gateway events update the message objects. *)
Definition Platform (S : Type) : Type :=
  forall c : Call, S -> World -> (Exn + Resp c) * S * World.

Record Run (S A : Type) := {
  trace : list Event;
  outcome : Exn + A;
  final_state : S;
  final_world : World
}.

Arguments trace {S A} r.
Arguments outcome {S A} r.
Arguments final_state {S A} r.
Arguments final_world {S A} r.

Definition failure_of {X : Type} (r : Exn + X) : option Exn :=
  match r with inl e => Some e | inr _ => None end.

Definition after {S A : Type} (evs : list Event) (r : Run S A) : Run S A :=
  {| trace := evs ++ trace r; outcome := outcome r;
     final_state := final_state r; final_world := final_world r |}.

Fixpoint exec {S A : Type} (P : Platform S) (p : Prog A) (s : S) (w : World)
  : Run S A :=
  match p with
  | Ret a =>
      {| trace := []; outcome := inr a; final_state := s; final_world := w |}
  | Raise e =>
      {| trace := []; outcome := inl e; final_state := s; final_world := w |}
  | Read k => exec P (k w) s w
  | Await c k =>
      let '(r, s', w') := P c s w in
      after [EvCall c; EvDone c (failure_of r)] (exec P (k r) s' w')
  | CreateTask t k => after [EvTask t] (exec P k s w)
  end.

(** The requests of a trace, in the order they were issued. *)
Fixpoint issued (tr : list Event) : list Call :=
  match tr with
  | [] => []
  | EvCall c :: rest => c :: issued rest
  | _ :: rest => issued rest
  end.

(** The exceptions of a trace. *)
Fixpoint failures (tr : list Event) : list Exn :=
  match tr with
  | [] => []
  | EvDone _ (Some e) :: rest => e :: failures rest
  | _ :: rest => failures rest
  end.

(** The tasks a trace schedules. *)
Fixpoint scheduled (tr : list Event) : list Coro :=
  match tr with
  | [] => []
  | EvTask t :: rest => t :: scheduled rest
  | _ :: rest => scheduled rest
  end.

(** A trace in which every request completes before anything else happens:
    no two requests are ever outstanding together. *)
Inductive sequential : list Event -> Prop :=
| sequential_nil : sequential []
| sequential_call c f tr :
    sequential tr -> sequential (EvCall c :: EvDone c f :: tr)
| sequential_task t tr : sequential tr -> sequential (EvTask t :: tr).

(** The number of requests issued and not yet completed after each event. *)
Fixpoint outstanding (n : nat) (tr : list Event) : list nat :=
  match tr with
  | [] => []
  | EvCall _ :: rest => Datatypes.S n :: outstanding (Datatypes.S n) rest
  | EvDone _ _ :: rest => Nat.pred n :: outstanding (Nat.pred n) rest
  | EvTask _ :: rest => n :: outstanding n rest
  end.

(** Await each request of a list, one after the other. *)
Fixpoint await_each (calls : list Call) : Prog unit :=
  match calls with
  | [] => Ret tt
  | c :: rest => await c;; await_each rest
  end.

(** Some execution of the coroutine, whatever it reads and whatever its
    requests evaluate to, issues a request for which [Q] holds. *)
Fixpoint may_call {A : Type} (Q : Call -> Prop) (p : Prog A) : Prop :=
  match p with
  | Ret _ | Raise _ => False
  | Read k => exists w, may_call Q (k w)
  | Await c k => Q c \/ exists r, may_call Q (k r)
  | CreateTask _ k => may_call Q k
  end.

(** Some execution of the coroutine schedules a task. *)
Fixpoint may_schedule {A : Type} (p : Prog A) : Prop :=
  match p with
  | Ret _ | Raise _ => False
  | Read k => exists w, may_schedule (k w)
  | Await c k => exists r, may_schedule (k r)
  | CreateTask _ _ => True
  end.

(** ** A simulated platform *)

(** The simulation answers [history] with [sim_history] and [fetch_message]
    with [sim_fetch], and fails [add_reaction] of the emoji in [sim_reject];
    with [records] set, a successful [add_reaction] puts the bot's reaction
    on the message object. *)
Record Sim := {
  sim_history : list MsgRef;
  sim_fetch : Exn + MsgRef;
  sim_reject : list string
}.

(** The client library, on a reaction of the bot: the message's entry for the
    emoji is marked as the bot's, and an entry is added when there is none. *)
Fixpoint mark_own (e : string) (rs : list Reaction) : list Reaction :=
  match rs with
  | [] => [{| emoji := e; me := true |}]
  | r :: rest =>
      if bool_decide (emoji r = e)
      then {| emoji := e; me := true |} :: rest
      else r :: mark_own e rest
  end.

Definition record_reaction (incident : MsgRef) (e : string) (w : World) : World :=
  {| objects := fun r =>
       if bool_decide (r = incident)
       then with_reactions (mark_own e (reactions (objects w r))) (objects w r)
       else objects w r;
     cached_messages := cached_messages w;
     cached_channels := cached_channels w |}.

Definition simulate (records : bool) : Platform Sim :=
  fun c =>
    match c as c0 return Sim -> World -> (Exn + Resp c0) * Sim * World with
    | wait_until_guild_available => fun s w => (inr tt, s, w)
    | history _ _ => fun s w => (inr (sim_history s), s, w)
    | add_reaction incident e => fun s w =>
        if bool_decide (e ∈ sim_reject s) then (inl Forbidden, s, w)
        else (inr tt, s, if records then record_reaction incident e w else w)
    | sleep _ => fun s w => (inr tt, s, w)
    | fetch_message _ _ => fun s w => (sim_fetch s, s, w)
    | event_lock_acquire => fun s w => (inr tt, s, w)
    end.

(** A platform on which somebody else completes the signals while the first
    reaction is being added: whatever reaction is requested, the message
    object has the three example signals as the bot's own when the request
    is through. *)
Definition simulate_racing : Platform Sim :=
  fun c s w =>
    let '(r, s', w') := simulate false c s w in
    (r, s',
     match c with
     | add_reaction incident _ =>
         record_reaction incident "investigating"
           (record_reaction incident "unactioned"
              (record_reaction incident "actioned" w'))
     | _ => w'
     end).

(** A configuration, and a second one with other roles. *)
Definition example_config : Config :=
  {| Channels_incidents := 7;
     Emojis_incident_actioned := "actioned";
     Emojis_incident_unactioned := "unactioned";
     Emojis_incident_investigating := "investigating";
     Roles_moderators := 1; Roles_admins := 2; Roles_owners := 3 |}.

Definition example_config_other_roles : Config :=
  {| Channels_incidents := 7;
     Emojis_incident_actioned := "actioned";
     Emojis_incident_unactioned := "unactioned";
     Emojis_incident_investigating := "investigating";
     Roles_moderators := 10; Roles_admins := 20; Roles_owners := 30 |}.

(** A channel history of five messages: one of another channel, an incident
    with all the signals, an incident on which the bot has two of them and
    somebody else the third, a pinned header and a message of a bot; and a
    sixth message, an incident without text and without reactions. *)
Definition example_message (r : MsgRef) : Message :=
  match r with
  | 0%nat =>
      {| message_id := 100; channel_id := 8; author_bot := false;
         content := "hello"; pinned := false; reactions := [] |}
  | 1%nat =>
      {| message_id := 101; channel_id := 7; author_bot := false;
         content := "spam in general"; pinned := false;
         reactions := [ {| emoji := "actioned"; me := true |};
                        {| emoji := "unactioned"; me := true |};
                        {| emoji := "investigating"; me := true |} ] |}
  | 2%nat =>
      {| message_id := 102; channel_id := 7; author_bot := false;
         content := "raid"; pinned := false;
         reactions := [ {| emoji := "actioned"; me := true |};
                        {| emoji := "investigating"; me := false |};
                        {| emoji := "unactioned"; me := true |} ] |}
  | 3%nat =>
      {| message_id := 103; channel_id := 7; author_bot := false;
         content := "how to report"; pinned := true; reactions := [] |}
  | 4%nat =>
      {| message_id := 104; channel_id := 7; author_bot := true;
         content := "reminder"; pinned := false; reactions := [] |}
  | _ =>
      {| message_id := 105; channel_id := 7; author_bot := false;
         content := ""; pinned := false; reactions := [] |}
  end.

Definition example_world : World :=
  {| objects := example_message;
     cached_messages := {[ 102 := 2%nat ]};
     cached_channels := {[ 7 ]} |}.

Definition example_sim : Sim :=
  {| sim_history := [0%nat; 1%nat; 2%nat; 3%nat; 4%nat];
     sim_fetch := inl NotFound;
     sim_reject := [] |}.

(** ** Specification vocabulary *)

(** The emoji [add_signals] has to place on a message whose own reactions
    are [existing_reacts]: the values of the members of [Signal], in the
    order of the enumeration, that are not among them. *)
Definition missing_emoji (c : Config) (existing_reacts : gset string) : list string :=
  filter (fun e => e ∉ existing_reacts) (map (Signal_value c) (Signal_members c)).

(** A platform on which a successful [add_reaction] leaves the bot's reaction
    on the message object, next to the reactions the bot had there. *)
Definition records_reactions {S : Type} (P : Platform S) : Prop :=
  forall (incident : MsgRef) (e : string) (s s' : S) (w w' : World),
    P (add_reaction incident e) s w = (inr tt, s', w') ->
    e ∈ own_reactions (objects w' incident) /\
    own_reactions (objects w incident) ⊆ own_reactions (objects w' incident).

(** A message the crawl works on: an incident that lacks a signal. *)
Definition needs_signals (c : Config) (m : Message) : bool :=
  is_incident c m && negb (has_signals c m).

(** The messages of the history the crawl works on, as the objects are in [w]. *)
Definition crawl_selected (c : Config) (w : World) (messages : list MsgRef)
  : list MsgRef :=
  filter (fun message => needs_signals c (objects w message) = true) messages.

(** What the crawl asks of the platform once it has the history: for each
    message it works on, in the order of the history, the missing reactions
    and then the delay; nothing for a message it skips. *)
Definition crawl_requests (c : Config) (w : World) (messages : list MsgRef)
  : list Call :=
  flat_map
    (fun message =>
       map (add_reaction message)
           (missing_emoji c (own_reactions (objects w message)))
       ++ [sleep 2])
    (crawl_selected c w messages).

(** A request that may change the message object: every request but a
    delay and a reaction added to another message. *)
Definition disturbs (call : Call) (message : MsgRef) : Prop :=
  match call with
  | add_reaction target _ => target = message
  | sleep _ => False
  | _ => True
  end.

(** The assumption of the crawl, that the history does not change while it
    goes over it: a delay, and a reaction added to one message, leave the
    other message objects of the history as they were. *)
Definition history_undisturbed {S : Type} (P : Platform S)
    (messages : list MsgRef) : Prop :=
  forall (call : Call) (s : S) (w : World) (message : MsgRef),
    message ∈ messages -> ~ disturbs call message ->
    objects (P call s w).2 message = objects w message.

(** Two configurations with the same channel and the same emoji: they differ
    at most in the moderator, admin and owner roles. *)
Definition same_but_roles (c1 c2 : Config) : Prop :=
  Channels_incidents c1 = Channels_incidents c2 /\
  Emojis_incident_actioned c1 = Emojis_incident_actioned c2 /\
  Emojis_incident_unactioned c1 = Emojis_incident_unactioned c2 /\
  Emojis_incident_investigating c1 = Emojis_incident_investigating c2.

#[global] Instance add_reaction_inj (incident : MsgRef) :
  Inj eq eq (add_reaction incident).
Proof. intros e1 e2 H. by injection H. Qed.

(** A platform that keeps to the limit of a [history] request. *)
Definition honours_limit {S : Type} (P : Platform S) : Prop :=
  forall (channel : Z) (limit : nat) (s s' : S) (w w' : World)
         (messages : list MsgRef),
    P (history channel limit) s w = (inr messages, s', w') ->
    (length messages <= limit)%nat.

(** A run that goes no further than its first failed request: a run that
    returns has seen no request fail, and a run that raises [e] either ends on
    the request that raised [e], the only one that failed, or raises an
    exception of its own ([own e]) with no failed request at all. *)
Definition fails_fast {S A : Type} (own : Exn -> Prop) (run : Run S A) : Prop :=
  match outcome run with
  | inr _ => failures (trace run) = []
  | inl e =>
      (exists tr call,
         trace run = tr ++ [EvDone call (Some e)] /\ failures tr = [])
      \/ (own e /\ failures (trace run) = [])
  end.

(** The simulation again, with a [history] that keeps to the limit. *)
Definition simulate_within_limit : Platform Sim :=
  fun c =>
    match c as c0 return Sim -> World -> (Exn + Resp c0) * Sim * World with
    | history _ limit => fun s w => (inr (take limit (sim_history s)), s, w)
    | c' => simulate true c'
    end.

(** The example runtime before the incidents channel is in the cache. *)
Definition example_world_no_channel : World :=
  {| objects := example_message;
     cached_messages := ∅;
     cached_channels := ∅ |}.

(** A simulation that refuses the second signal. *)
Definition example_sim_rejecting : Sim :=
  {| sim_history := [0%nat; 1%nat; 2%nat; 3%nat; 4%nat];
     sim_fetch := inl NotFound;
     sim_reject := ["unactioned"] |}.

(** A message on which only somebody else has reacted, with a signal emoji. *)
Definition example_message_others : Message :=
  {| message_id := 106; channel_id := 7; author_bot := false;
     content := "raid"; pinned := false;
     reactions := [ {| emoji := "actioned"; me := false |} ] |}.

(** * Properties *)

(** ** Classification *)

Lemma startswith_hash (s : string) :
  startswith s "#" = true <-> exists rest, s = String "#"%char rest.
Proof.
  unfold startswith. destruct s as [|a s]; cbn [String.prefix].
  - split; [done | by intros [rest H]].
  - destruct (Ascii.ascii_dec "#"%char a) as [<-|Hne].
    + split; [intros _; eauto | intros _; by destruct s].
    + split; [done | intros [rest H]; congruence].
Qed.

Lemma is_incident_spec (c : Config) (m : Message) :
  is_incident c m = true <->
    channel_id m = Channels_incidents c /\ author_bot m = false /\
    startswith (content m) "#" = false /\ pinned m = false.
Proof.
  unfold is_incident, id; simpl.
  rewrite !andb_true_iff, !negb_true_iff, Z.eqb_eq. tauto.
Qed.

(** C1: [is_incident] is true exactly when the message is in the incidents
    channel, its author is not a bot, its content does not start with [#] and
    it is not pinned; and from a message that qualifies, another channel, a bot
    author, a content that starts with [#] or a pin each make it false. *)
Theorem is_incident_four_conditions (c : Config) (m : Message) :
  (is_incident c m = true <->
     channel_id m = Channels_incidents c /\
     author_bot m = false /\
     (forall rest, content m <> String "#"%char rest) /\
     pinned m = false) /\
  (is_incident c m = true ->
     (forall ch, ch <> Channels_incidents c ->
        is_incident c (with_channel ch m) = false) /\
     is_incident c (with_author_bot true m) = false /\
     (forall rest, is_incident c (with_content (String "#"%char rest) m) = false) /\
     is_incident c (with_pinned true m) = false).
Proof.
  split.
  - rewrite is_incident_spec.
    assert (startswith (content m) "#" = false <->
            forall rest, content m <> String "#"%char rest) as ->; [|tauto].
    split.
    + intros Hf rest Heq.
      assert (startswith (content m) "#" = true) by (apply startswith_hash; eauto).
      congruence.
    + intros Hne. apply not_true_is_false. intros [rest H]%startswith_hash.
      by apply (Hne rest).
  - intros _. repeat split.
    + intros ch Hch. apply not_true_is_false.
      intros (H & _)%is_incident_spec. by apply Hch.
    + apply not_true_is_false. intros (_ & H & _)%is_incident_spec. discriminate.
    + intros rest. apply not_true_is_false.
      intros (_ & _ & H & _)%is_incident_spec.
      cbn [content with_content] in H.
      assert (startswith (String "#"%char rest) "#" = true)
        by (apply startswith_hash; eauto).
      congruence.
    + apply not_true_is_false. intros (_ & _ & _ & H)%is_incident_spec. discriminate.
Qed.

(** ** Own reactions and the signals *)

Lemma elem_of_own_reactions (m : Message) (e : string) :
  e ∈ own_reactions m <->
  exists r, r ∈ reactions m /\ me r = true /\ emoji r = e.
Proof.
  unfold own_reactions. rewrite elem_of_list_to_set, list_elem_of_fmap.
  split.
  - intros (r & -> & [Hme Hin]%list_elem_of_filter). eauto.
  - intros (r & Hin & Hme & <-). exists r. split; [done|].
    by apply list_elem_of_filter.
Qed.

Lemma elem_of_enum_members (c : Config) (decl : list Signal) (seen : list string)
    (e : string) :
  e ∈ map (Signal_value c) (enum_members c seen decl) <->
  e ∈ map (Signal_value c) decl /\ e ∉ seen.
Proof.
  revert seen. induction decl as [|s decl IH]; intros seen; simpl.
  - rewrite elem_of_nil. tauto.
  - case_bool_decide as Hs; simpl.
    + rewrite IH, elem_of_cons. split; [tauto|].
      intros [[->|?] ?]; tauto.
    + rewrite !elem_of_cons, IH, elem_of_cons.
      destruct (decide (e = Signal_value c s)) as [->|]; tauto.
Qed.

Lemma NoDup_enum_members (c : Config) (decl : list Signal) (seen : list string) :
  NoDup (map (Signal_value c) (enum_members c seen decl)).
Proof.
  revert seen. induction decl as [|s decl IH]; intros seen; simpl.
  - constructor.
  - case_bool_decide; simpl; [apply IH|].
    constructor; [|apply IH].
    rewrite elem_of_enum_members, elem_of_cons. tauto.
Qed.

Lemma Signal_members_distinct (c : Config) :
  emoji_distinct c -> Signal_members c = [ACTIONED; NOT_ACTIONED; INVESTIGATING].
Proof.
  intros (H1 & H2 & H3).
  unfold Signal_members, Signal_declared; cbn [enum_members Signal_value].
  rewrite (bool_decide_eq_false_2 (_ ∈ [])) by apply not_elem_of_nil.
  rewrite (bool_decide_eq_false_2 (_ ∈ [_]))
    by (intros ?%list_elem_of_singleton; congruence).
  rewrite bool_decide_eq_false_2; [done|].
  intros [?|?%list_elem_of_singleton]%elem_of_cons; congruence.
Qed.

Lemma elem_of_ALLOWED_EMOJI (c : Config) (e : string) :
  e ∈ ALLOWED_EMOJI c <-> exists s, e = Signal_value c s.
Proof.
  unfold ALLOWED_EMOJI, Signal_members.
  rewrite elem_of_list_to_set, elem_of_enum_members.
  unfold Signal_declared; cbn [map]. rewrite !elem_of_cons.
  split.
  - intros [[->|[->|[->|[]%elem_of_nil]]] _];
      [by exists ACTIONED | by exists NOT_ACTIONED | by exists INVESTIGATING].
  - intros [[] ->]; (split; [tauto | apply not_elem_of_nil]).
Qed.

Lemma has_signals_subseteq (c : Config) (m : Message) :
  has_signals c m = true <-> ALLOWED_EMOJI c ⊆ own_reactions m.
Proof.
  unfold has_signals; cbv zeta. rewrite bool_decide_eq_true. split.
  - intros Hempty e He. destruct (decide (e ∈ own_reactions m)) as [|Hno]; [done|].
    assert (e ∈ ALLOWED_EMOJI c ∖ own_reactions m) as Hin
      by (by apply elem_of_difference).
    rewrite Hempty in Hin. by apply not_elem_of_empty in Hin.
  - intros Hsub. apply set_eq. intros e.
    rewrite elem_of_difference, elem_of_empty. split; [|done].
    intros [He Hno]. apply Hno, Hsub, He.
Qed.

(** C2: [own_reactions] is the set of the emoji of the message's reactions
    whose [me] flag is set; [has_signals] is true exactly when that set
    includes [ALLOWED_EMOJI], the set of the signals' values, that is when
    [ALLOWED_EMOJI] minus the own reactions is empty; evaluating either issues
    no request, schedules nothing and leaves the runtime as it was. *)
Theorem own_reactions_and_has_signals (c : Config) (m : Message) :
  (forall e, e ∈ own_reactions m <->
             exists r, r ∈ reactions m /\ me r = true /\ emoji r = e) /\
  (forall e, e ∈ ALLOWED_EMOJI c <-> exists s, e = Signal_value c s) /\
  (has_signals c m = true <-> ALLOWED_EMOJI c ⊆ own_reactions m) /\
  (has_signals c m = true <-> ALLOWED_EMOJI c ∖ own_reactions m = ∅) /\
  (forall (S : Type) (P : Platform S) (ref : MsgRef) (s : S) (w : World),
     exec P (inspect own_reactions ref) s w =
       {| trace := []; outcome := inr (own_reactions (objects w ref));
          final_state := s; final_world := w |} /\
     exec P (inspect (has_signals c) ref) s w =
       {| trace := []; outcome := inr (has_signals c (objects w ref));
          final_state := s; final_world := w |}).
Proof.
  split; [apply elem_of_own_reactions|].
  split; [apply elem_of_ALLOWED_EMOJI|].
  split; [apply has_signals_subseteq|].
  split; [|done].
  unfold has_signals. apply bool_decide_eq_true.
Qed.

(** ** Runs *)

Section Runs.
Context {S : Type} (P : Platform S).

Lemma after_app {A : Type} (evs1 evs2 : list Event) (r : Run S A) :
  after evs1 (after evs2 r) = after (evs1 ++ evs2) r.
Proof. unfold after; simpl. by rewrite app_assoc. Qed.

Lemma after_nil {A : Type} (r : Run S A) : after [] r = r.
Proof. by destruct r. Qed.

(** A run of [p] followed by [f]: the run of [p], and when that returns
    the run of [f] from where [p] left the platform and the runtime. *)
Lemma exec_bind {A B : Type} (p : Prog A) (f : A -> Prog B) (s : S) (w : World) :
  exec P (bind p f) s w =
  match outcome (exec P p s w) with
  | inl e =>
      {| trace := trace (exec P p s w); outcome := inl e;
         final_state := final_state (exec P p s w);
         final_world := final_world (exec P p s w) |}
  | inr a =>
      after (trace (exec P p s w))
        (exec P (f a) (final_state (exec P p s w)) (final_world (exec P p s w)))
  end.
Proof.
  revert s w. induction p as [a|e|k IH|c k IH|t k IH]; intros s w; simpl.
  - by rewrite after_nil.
  - done.
  - apply IH.
  - destruct (P c s w) as [[r s'] w']. rewrite IH.
    destruct (exec P (k r) s' w') as [tr [e|a] fs fw]; simpl; [done|].
    by rewrite after_app.
  - rewrite IH.
    destruct (exec P k s w) as [tr [e|a] fs fw]; simpl; [done|].
    by rewrite after_app.
Qed.

Lemma exec_await_bind {B : Type} (c : Call) (f : Resp c -> Prog B) (s : S)
    (w : World) :
  exec P (bind (await c) f) s w =
  after [EvCall c; EvDone c (failure_of (P c s w).1.1)]
    match (P c s w).1.1 with
    | inl e =>
        {| trace := []; outcome := inl e; final_state := (P c s w).1.2;
           final_world := (P c s w).2 |}
    | inr x => exec P (f x) (P c s w).1.2 (P c s w).2
    end.
Proof. simpl. by destruct (P c s w) as [[[e|x] s'] w']. Qed.

Lemma exec_sequential {A : Type} (p : Prog A) (s : S) (w : World) :
  sequential (trace (exec P p s w)).
Proof.
  revert s w. induction p as [a|e|k IH|c k IH|t k IH]; intros s w; simpl.
  - constructor.
  - constructor.
  - apply IH.
  - destruct (P c s w) as [[r s'] w']. simpl. constructor. apply IH.
  - constructor. apply IH.
Qed.

(** Every request that a run issues is one that the coroutine may issue. *)
Lemma exec_issued_may_call {A : Type} (p : Prog A) (s : S) (w : World) (c : Call) :
  c ∈ issued (trace (exec P p s w)) -> may_call (eq c) p.
Proof.
  revert s w. induction p as [a|e|k IH|c' k IH|t k IH]; intros s w; simpl.
  - by intros ?%elem_of_nil.
  - by intros ?%elem_of_nil.
  - intros H. exists w. eapply IH, H.
  - destruct (P c' s w) as [[r s'] w']. simpl.
    intros [->|H]%elem_of_cons; [by left|].
    right. exists r. eapply IH, H.
  - apply IH.
Qed.

(** Every task that a run schedules is one that the coroutine may schedule. *)
Lemma exec_scheduled_may_schedule {A : Type} (p : Prog A) (s : S) (w : World) :
  scheduled (trace (exec P p s w)) <> [] -> may_schedule p.
Proof.
  revert s w. induction p as [a|e|k IH|c' k IH|t k IH]; intros s w; simpl.
  - done.
  - done.
  - intros H. exists w. eapply IH, H.
  - destruct (P c' s w) as [[r s'] w']. simpl.
    intros H. exists r. eapply IH, H.
  - done.
Qed.

Lemma await_each_issued_prefix (calls : list Call) (s : S) (w : World) :
  issued (trace (exec P (await_each calls) s w)) `prefix_of` calls.
Proof.
  revert s w. induction calls as [|c calls IH]; intros s w.
  - simpl. done.
  - cbn [await_each]. unfold mbind, Prog_bind. rewrite exec_await_bind.
    destruct (P c s w) as [[[e|x] s'] w']; simpl.
    + apply prefix_cons, prefix_nil.
    + apply prefix_cons, IH.
Qed.

Lemma await_each_no_failure (calls : list Call) (s : S) (w : World) :
  failures (trace (exec P (await_each calls) s w)) = [] <->
  outcome (exec P (await_each calls) s w) = inr tt.
Proof.
  revert s w. induction calls as [|c calls IH]; intros s w.
  - simpl. done.
  - cbn [await_each]. unfold mbind, Prog_bind. rewrite exec_await_bind.
    destruct (P c s w) as [[[e|x] s'] w']; simpl; [done|]. apply IH.
Qed.

Lemma await_each_returns (calls : list Call) (s : S) (w : World) :
  outcome (exec P (await_each calls) s w) = inr tt ->
  issued (trace (exec P (await_each calls) s w)) = calls.
Proof.
  revert s w. induction calls as [|c calls IH]; intros s w.
  - simpl. done.
  - cbn [await_each]. unfold mbind, Prog_bind. rewrite exec_await_bind.
    destruct (P c s w) as [[[e|x] s'] w']; simpl; [done|].
    intros H. f_equal. by apply IH.
Qed.

End Runs.

Lemma sequential_outstanding (tr : list Event) :
  sequential tr -> Forall (fun n => (n <= 1)%nat) (outstanding 0 tr).
Proof.
  induction 1 as [|c f tr _ IH|t tr _ IH]; simpl.
  - constructor.
  - constructor; [lia|]. constructor; [lia|done].
  - constructor; [lia|done].
Qed.

(** ** [add_signals] *)

Lemma add_signals_loop_await_each {S : Type} (P : Platform S) (c : Config)
    (incident : MsgRef) (existing_reacts : gset string) (signals : list Signal)
    (s : S) (w : World) :
  exec P (add_signals_loop c incident existing_reacts signals) s w =
  exec P (await_each (map (add_reaction incident)
            (filter (fun e => e ∉ existing_reacts)
                    (map (Signal_value c) signals)))) s w.
Proof.
  revert s w. induction signals as [|sig signals IH]; intros s w; [done|].
  cbn [add_signals_loop map]. rewrite filter_cons.
  case_bool_decide as Hin.
  - rewrite decide_False by (intros Hno; by apply Hno). apply IH.
  - rewrite decide_True by done. cbn [map await_each].
    unfold mbind, Prog_bind. rewrite !exec_await_bind.
    destruct (P _ s w) as [[[e|x] s'] w']; simpl; [done|]. by rewrite IH.
Qed.

Lemma add_signals_await_each {S : Type} (P : Platform S) (c : Config)
    (incident : MsgRef) (s : S) (w : World) :
  exec P (add_signals c incident) s w =
  exec P (await_each (map (add_reaction incident)
            (missing_emoji c (own_reactions (objects w incident))))) s w.
Proof.
  unfold add_signals, inspect, mbind, Prog_bind. cbn [bind exec].
  apply add_signals_loop_await_each.
Qed.

Lemma NoDup_missing_emoji (c : Config) (existing_reacts : gset string) :
  NoDup (missing_emoji c existing_reacts).
Proof. apply NoDup_filter, NoDup_enum_members. Qed.

(** C3: [add_signals] reads the own reactions of the message once, when it
    is called, and then behaves as awaiting, one at a time and in the order
    of the enumeration (Actioned, NotActioned, Investigating), one
    [add_reaction] for each signal whose emoji is not in that set, whatever
    the platform does to the message in the meantime: the requests issued
    are a prefix of that list without repetition, the whole list unless a
    request fails, and each request completes before the next is issued. *)
Theorem add_signals_in_order (c : Config) (S : Type) (P : Platform S)
    (incident : MsgRef) (s : S) (w : World) :
  let existing_reacts := own_reactions (objects w incident) in
  let requests := map (add_reaction incident) (missing_emoji c existing_reacts) in
  let run := exec P (add_signals c incident) s w in
  (emoji_distinct c ->
     missing_emoji c existing_reacts =
       filter (fun e => e ∉ existing_reacts)
         [Emojis_incident_actioned c; Emojis_incident_unactioned c;
          Emojis_incident_investigating c]) /\
  run = exec P (await_each requests) s w /\
  NoDup requests /\
  issued (trace run) `prefix_of` requests /\
  (failures (trace run) = [] <-> outcome run = inr tt) /\
  (outcome run = inr tt -> issued (trace run) = requests) /\
  sequential (trace run) /\
  Forall (fun n => (n <= 1)%nat) (outstanding 0 (trace run)).
Proof.
  intros existing_reacts requests run.
  assert (run = exec P (await_each requests) s w) as Hrun
    by apply add_signals_await_each.
  split; [|split; [done|]].
  { intros Hd. unfold missing_emoji. by rewrite (Signal_members_distinct c Hd). }
  split.
  { apply (NoDup_fmap_2 _), NoDup_missing_emoji. }
  rewrite Hrun.
  split; [apply await_each_issued_prefix|].
  split; [apply await_each_no_failure|].
  split; [apply await_each_returns|].
  split; [apply exec_sequential|].
  apply sequential_outstanding, exec_sequential.
Qed.

Lemma add_signals_loop_places {S : Type} (P : Platform S) (c : Config)
    (incident : MsgRef) (existing_reacts : gset string) (signals : list Signal)
    (s : S) (w : World) :
  records_reactions P ->
  existing_reacts ⊆ own_reactions (objects w incident) ->
  let run := exec P (add_signals_loop c incident existing_reacts signals) s w in
  outcome run = inr tt ->
  own_reactions (objects w incident)
    ⊆ own_reactions (objects (final_world run) incident) /\
  forall sig, sig ∈ signals ->
    Signal_value c sig ∈ own_reactions (objects (final_world run) incident).
Proof.
  intros Hrec. revert s w.
  induction signals as [|sig signals IH]; intros s w Hex run Hok.
  - split; [done|]. by intros sig ?%elem_of_nil.
  - subst run. revert Hok. cbn [add_signals_loop].
    case_bool_decide as Hin.
    + intros Hok. destruct (IH s w Hex Hok) as [Hmono Hall].
      split; [done|]. intros sig' [->|Hsig]%elem_of_cons; [|by apply Hall].
      by apply Hmono, Hex.
    + unfold mbind, Prog_bind. rewrite exec_await_bind.
      destruct (P (add_reaction incident (Signal_value c sig)) s w)
        as [[[e|[]] s'] w'] eqn:HP; simpl; [done|].
      intros Hok. destruct (Hrec _ _ _ _ _ _ HP) as [Hnew Hkeep].
      assert (existing_reacts ⊆ own_reactions (objects w' incident)) as Hex'
        by (etrans; done).
      destruct (IH s' w' Hex' Hok) as [Hmono Hall].
      split; [by etrans|].
      intros sig' [->|Hsig]%elem_of_cons; [by apply Hmono | by apply Hall].
Qed.

Lemma add_signals_loop_skip (c : Config) (incident : MsgRef)
    (existing_reacts : gset string) (signals : list Signal) :
  (forall sig, sig ∈ signals -> Signal_value c sig ∈ existing_reacts) ->
  add_signals_loop c incident existing_reacts signals = Ret tt.
Proof.
  induction signals as [|sig signals IH]; intros Hall; [done|].
  cbn [add_signals_loop].
  rewrite bool_decide_eq_true_2 by (apply Hall; left).
  apply IH. intros sig' Hsig. apply Hall. by right.
Qed.

(** C4: on a platform that records the bot's reactions on the message,
    a first [add_signals] issues no request twice and only requests for
    signal emoji the message did not have, and when it returns, a second
    [add_signals] on the same message issues no request at all. *)
Theorem add_signals_idempotent (c : Config) (S : Type) (P : Platform S)
    (incident : MsgRef) (s : S) (w : World) :
  records_reactions P ->
  let first := exec P (add_signals c incident) s w in
  let second :=
    exec P (add_signals c incident) (final_state first) (final_world first) in
  NoDup (issued (trace first)) /\
  (forall call, call ∈ issued (trace first) ->
     exists sig, call = add_reaction incident (Signal_value c sig) /\
                 Signal_value c sig ∉ own_reactions (objects w incident)) /\
  (outcome first = inr tt ->
     trace second = [] /\ outcome second = inr tt /\
     final_world second = final_world first).
Proof.
  intros Hrec first second.
  pose proof (add_signals_await_each P c incident s w) as Hrun.
  assert (NoDup (map (add_reaction incident)
                   (missing_emoji c (own_reactions (objects w incident)))))
    as Hnodup by apply (NoDup_fmap_2 _), NoDup_missing_emoji.
  pose proof (await_each_issued_prefix P
                (map (add_reaction incident)
                   (missing_emoji c (own_reactions (objects w incident)))) s w)
    as Hprefix.
  rewrite <- Hrun in Hprefix. fold first in Hprefix.
  split; [|split].
  - destruct Hprefix as [rest Hrest]. rewrite Hrest in Hnodup.
    by apply NoDup_app in Hnodup as [? _].
  - intros call Hcall.
    assert (call ∈ map (add_reaction incident)
              (missing_emoji c (own_reactions (objects w incident)))) as Hin.
    { destruct Hprefix as [rest ->]. apply elem_of_app. by left. }
    apply list_elem_of_fmap in Hin as (e & -> & He).
    apply list_elem_of_filter in He as [Hno He].
    apply list_elem_of_fmap in He as (sig & -> & _). by exists sig.
  - intros Hok. subst first second.
    unfold add_signals, inspect, mbind, Prog_bind in *. cbn [bind exec] in *.
    destruct (add_signals_loop_places P c incident _ (Signal_members c) s w
                Hrec (reflexivity _) Hok) as [_ Hall].
    by rewrite add_signals_loop_skip.
Qed.

(** ** [crawl_incidents] *)

Lemma await_each_app_bind {S : Type} (P : Platform S) (l1 l2 : list Call)
    (s : S) (w : World) :
  exec P (await_each (l1 ++ l2)) s w =
  exec P (bind (await_each l1) (fun _ => await_each l2)) s w.
Proof.
  revert s w. induction l1 as [|call l1 IH]; intros s w; [done|].
  cbn [app await_each]. unfold mbind, Prog_bind. cbn [await bind exec].
  destruct (P call s w) as [[[e|x] s'] w']; cbn [bind]; [done|].
  f_equal. apply IH.
Qed.

Lemma await_each_undisturbed {S : Type} (P : Platform S) (all : list MsgRef)
    (calls : list Call) (s : S) (w : World) (message : MsgRef) :
  history_undisturbed P all ->
  Forall (fun call => ~ disturbs call message) calls ->
  message ∈ all ->
  objects (final_world (exec P (await_each calls) s w)) message
  = objects w message.
Proof.
  intros Hund Hcalls Hin. revert s w.
  induction Hcalls as [|call calls Hcall _ IH]; intros s w; [done|].
  cbn [await_each]. unfold mbind, Prog_bind. rewrite exec_await_bind.
  pose proof (Hund call s w message Hin Hcall) as Hstep.
  destruct (P call s w) as [[[e|x] s'] w']; simpl in *; [done|].
  by rewrite IH.
Qed.

Lemma crawl_requests_cons (c : Config) (w : World) (message : MsgRef)
    (rest : list MsgRef) :
  crawl_requests c w (message :: rest) =
  (if needs_signals c (objects w message)
   then map (add_reaction message)
          (missing_emoji c (own_reactions (objects w message))) ++ [sleep 2]
   else [])
  ++ crawl_requests c w rest.
Proof.
  unfold crawl_requests, crawl_selected. rewrite filter_cons.
  destruct (needs_signals c (objects w message)).
  - by rewrite decide_True by done.
  - by rewrite decide_False by done.
Qed.

Lemma crawl_loop_await_each {S : Type} (P : Platform S) (c : Config)
    (w1 : World) (messages : list MsgRef) (s : S) (w : World) :
  NoDup messages ->
  history_undisturbed P messages ->
  (forall message, message ∈ messages -> objects w message = objects w1 message) ->
  exec P (crawl_loop c messages) s w =
  exec P (await_each (crawl_requests c w1 messages)) s w.
Proof.
  revert s w. induction messages as [|message rest IH]; intros s w Hnd Hund Hag.
  - done.
  - apply NoDup_cons in Hnd as [Hfresh Hnd].
    assert (history_undisturbed P rest) as Hund'.
    { intros call s0 w0 m Hm. apply Hund. by right. }
    assert (objects w message = objects w1 message) as Hhead
      by (apply Hag; left).
    assert (forall m, m ∈ rest -> objects w m = objects w1 m) as Htail
      by (intros m Hm; apply Hag; by right).
    rewrite crawl_requests_cons. unfold needs_signals.
    cbn [crawl_loop]. unfold inspect, mbind, Prog_bind. cbn [bind exec].
    rewrite Hhead.
    destruct (is_incident c (objects w1 message)); cbn [negb andb];
      [|by apply IH].
    cbn [bind exec]. rewrite Hhead.
    destruct (has_signals c (objects w1 message)); cbn [negb];
      [by apply IH|].
    rewrite <- app_assoc, await_each_app_bind.
    rewrite (exec_bind P (add_signals c message)), (exec_bind P (await_each _)).
    rewrite add_signals_await_each, Hhead.
    set (requests := map (add_reaction message)
                       (missing_emoji c (own_reactions (objects w1 message)))).
    assert (forall m, m ∈ rest ->
              objects (final_world (exec P (await_each requests) s w)) m
              = objects w1 m) as Hag'.
    { intros m Hm.
      rewrite (await_each_undisturbed P rest); [by apply Htail|done| |done].
      subst requests. apply Forall_fmap, Forall_true. simpl.
      intros e ->. done. }
    destruct (exec P (await_each requests) s w) as [tr [e|[]] s' w'];
      cbn [outcome trace final_state final_world] in *; [done|].
    f_equal. cbn [app await_each]. unfold mbind, Prog_bind.
    rewrite !exec_await_bind.
    pose proof (fun m Hm => Hund' (sleep 2) s' w' m Hm (fun F => F)) as Hsleep.
    unfold crawl_sleep in *.
    destruct (P (sleep 2) s' w') as [[[e|x] s''] w'']; simpl in *; [done|].
    f_equal. apply IH; [done|done|].
    intros m Hm. rewrite Hsleep by done. by apply Hag'.
Qed.

Lemma may_schedule_bind {A B : Type} (p : Prog A) (f : A -> Prog B) :
  may_schedule (bind p f) -> may_schedule p \/ exists a, may_schedule (f a).
Proof.
  induction p as [a|e|k IH|call k IH|t k IH]; simpl.
  - intros H. right. by exists a.
  - done.
  - intros [w [H|[a H]]%IH]; [left; by exists w | right; by exists a].
  - intros [r [H|[a H]]%IH]; [left; by exists r | right; by exists a].
  - by left.
Qed.

Lemma may_call_bind {A B : Type} (Q : Call -> Prop) (p : Prog A) (f : A -> Prog B) :
  may_call Q (bind p f) -> may_call Q p \/ exists a, may_call Q (f a).
Proof.
  induction p as [a|e|k IH|call k IH|t k IH]; simpl.
  - intros H. right. by exists a.
  - done.
  - intros [w [H|[a H]]%IH]; [left; by exists w | right; by exists a].
  - intros [H|[r [H|[a H]]%IH]];
      [by left; left | left; right; by exists r | right; by exists a].
  - apply IH.
Qed.

Lemma may_schedule_try_except {A B : Type} (body : Prog A) (catches : Exn -> bool)
    (handler : Exn -> Prog B) (orelse : A -> Prog B) :
  may_schedule (try_except body catches handler orelse) ->
  may_schedule body \/ (exists e, may_schedule (handler e))
  \/ exists a, may_schedule (orelse a).
Proof.
  induction body as [a|e|k IH|call k IH|t k IH]; simpl.
  - intros H. right; right. by exists a.
  - destruct (catches e); [|done]. intros H. right; left. by exists e.
  - intros [w [H|H]%IH]; [left; by exists w | by right].
  - intros [r [H|H]%IH]; [left; by exists r | by right].
  - by left.
Qed.

Lemma may_call_try_except {A B : Type} (Q : Call -> Prop) (body : Prog A)
    (catches : Exn -> bool) (handler : Exn -> Prog B) (orelse : A -> Prog B) :
  may_call Q (try_except body catches handler orelse) ->
  may_call Q body \/ (exists e, may_call Q (handler e))
  \/ exists a, may_call Q (orelse a).
Proof.
  induction body as [a|e|k IH|call k IH|t k IH]; simpl.
  - intros H. right; right. by exists a.
  - destruct (catches e); [|done]. intros H. right; left. by exists e.
  - intros [w [H|H]%IH]; [left; by exists w | by right].
  - intros [H|[r [H|H]%IH]]; [by left; left | left; right; by exists r | by right].
  - apply IH.
Qed.

(** The requests [add_signals] may issue are reactions to its message, and it
    schedules nothing. *)
Lemma add_signals_loop_may_call (Q : Call -> Prop) (c : Config) (incident : MsgRef)
    (existing_reacts : gset string) (signals : list Signal) :
  may_call Q (add_signals_loop c incident existing_reacts signals) ->
  exists sig, Q (add_reaction incident (Signal_value c sig)).
Proof.
  induction signals as [|sig signals IH]; cbn [add_signals_loop]; [done|].
  case_bool_decide as Hin; [done|]. unfold mbind, Prog_bind. simpl.
  intros [H|[[e|[]] H]]; [by exists sig | done | by apply IH].
Qed.

Lemma add_signals_may_call (Q : Call -> Prop) (c : Config) (incident : MsgRef) :
  may_call Q (add_signals c incident) ->
  exists sig, Q (add_reaction incident (Signal_value c sig)).
Proof.
  unfold add_signals, inspect, mbind, Prog_bind. cbn [bind may_call].
  intros [w H]. by apply add_signals_loop_may_call in H.
Qed.

Lemma add_signals_loop_never_schedules (c : Config) (incident : MsgRef)
    (existing_reacts : gset string) (signals : list Signal) :
  ~ may_schedule (add_signals_loop c incident existing_reacts signals).
Proof.
  induction signals as [|sig signals IH]; cbn [add_signals_loop];
    [by intros []|].
  case_bool_decide as Hin; [done|]. unfold mbind, Prog_bind. simpl.
  intros [[e|[]] H]; [done | by apply IH].
Qed.

Lemma add_signals_never_schedules (c : Config) (incident : MsgRef) :
  ~ may_schedule (add_signals c incident).
Proof.
  unfold add_signals, inspect, mbind, Prog_bind. cbn [bind may_schedule].
  intros [w H]. by apply add_signals_loop_never_schedules in H.
Qed.

Lemma crawl_loop_may_call (Q : Call -> Prop) (c : Config) (messages : list MsgRef) :
  may_call Q (crawl_loop c messages) ->
  (exists message sig, Q (add_reaction message (Signal_value c sig)))
  \/ Q (sleep 2).
Proof.
  induction messages as [|message rest IH]; cbn [crawl_loop]; [done|].
  unfold inspect, mbind, Prog_bind. cbn [bind may_call]. intros [w H]. revert H.
  destruct (is_incident c (objects w message)); cbn [negb]; [|done].
  cbn [bind may_call]. intros [w' H]. revert H.
  destruct (has_signals c (objects w' message)); [done|].
  intros [H|[[] H]]%may_call_bind.
  - left. exists message. by apply add_signals_may_call.
  - cbn [await bind may_call] in H.
    destruct H as [H|[[e|[]] H]]; [by right | done | by apply IH].
Qed.

Lemma crawl_loop_never_schedules (c : Config) (messages : list MsgRef) :
  ~ may_schedule (crawl_loop c messages).
Proof.
  induction messages as [|message rest IH]; cbn [crawl_loop];
    [by intros []|].
  unfold inspect, mbind, Prog_bind. cbn [bind may_schedule].
  intros [w H]. revert H.
  destruct (is_incident c (objects w message)); cbn [negb]; [|done].
  cbn [bind may_schedule]. intros [w' H]. revert H.
  destruct (has_signals c (objects w' message)); [done|].
  intros [H|[[] H]]%may_schedule_bind.
  - by apply add_signals_never_schedules in H.
  - cbn [await bind may_schedule] in H. by destruct H as [[e|[]] H].
Qed.

Lemma crawl_incidents_never_schedules (c : Config) :
  ~ may_schedule (crawl_incidents c).
Proof.
  unfold crawl_incidents, mbind, Prog_bind. simpl.
  intros [[e|[]] H]; simpl in H; [done|].
  destruct H as [w H]. destruct (get_channel w (Channels_incidents c)); [|done].
  simpl in H. destruct H as [[e|messages] H]; simpl in H; [done|].
  by apply crawl_loop_never_schedules in H.
Qed.

Lemma on_message_never_schedules (c : Config) (message : MsgRef) :
  ~ may_schedule (on_message c message).
Proof.
  unfold on_message, inspect, mbind, Prog_bind. cbn [bind may_schedule].
  intros [w H]. destruct (is_incident c (objects w message)); [|done].
  by apply add_signals_never_schedules in H.
Qed.

Lemma resolve_message_never_schedules (c : Config) (id : Z) :
  ~ may_schedule (resolve_message c id).
Proof.
  unfold resolve_message, mbind, Prog_bind. simpl.
  intros [[e|[]] H]; simpl in H; [done|].
  destruct H as [w H]. destruct (_get_message w id); [done|].
  simpl in H. destruct H as [w' H].
  destruct (get_channel w' (Channels_incidents c)); simpl in H; [|done].
  destruct H as [[e|fetched] H]; simpl in H; [|done].
  by destruct (isinstance_Exception e).
Qed.

(** C5: once the guild is available and the incidents channel is resolved,
    the crawl asks for the history of that channel with a limit of 50, and,
    while the history is left undisturbed, goes over the messages it is given
    in their order: nothing is requested for a message that is not an
    incident or that has all the signals, and for every other message the
    missing reactions are added and a delay of 2 seconds follows.  The crawl
    returns once the requests are through, unless one fails; it works on at
    most 50 messages when the platform keeps to the limit; the constructor
    schedules it once and no coroutine of the cog schedules anything. *)
Theorem crawl_incidents_run (c : Config) (S : Type) (P : Platform S)
    (s s0 s1 : S) (w w0 w1 : World) (messages : list MsgRef) :
  P wait_until_guild_available s w = (inr tt, s0, w0) ->
  Channels_incidents c ∈ cached_channels w0 ->
  P (history (Channels_incidents c) 50) s0 w0 = (inr messages, s1, w1) ->
  NoDup messages ->
  history_undisturbed P messages ->
  let run := exec P (crawl_incidents c) s w in
  let opening :=
    [wait_until_guild_available; history (Channels_incidents c) 50] in
  run =
    after [EvCall wait_until_guild_available;
           EvDone wait_until_guild_available None;
           EvCall (history (Channels_incidents c) 50);
           EvDone (history (Channels_incidents c) 50) None]
      (exec P (await_each (crawl_requests c w1 messages)) s1 w1) /\
  issued (trace run) `prefix_of` opening ++ crawl_requests c w1 messages /\
  (failures (trace run) = [] <-> outcome run = inr tt) /\
  (outcome run = inr tt ->
     issued (trace run) = opening ++ crawl_requests c w1 messages) /\
  ((length messages <= crawl_limit)%nat ->
     (length (crawl_selected c w1 messages) <= 50)%nat) /\
  (forall (s' : S) (w' : World),
     scheduled (trace (exec P Incidents__init__ s' w')) = [Coro_crawl_incidents]) /\
  coro_body c Coro_crawl_incidents = crawl_incidents c /\
  ~ may_schedule (crawl_incidents c) /\
  (forall message, ~ may_schedule (on_message c message)) /\
  (forall id, ~ may_schedule (resolve_message c id)).
Proof.
  intros Hwait Hchannel Hhistory Hnd Hund run opening.
  assert (run =
    after [EvCall wait_until_guild_available;
           EvDone wait_until_guild_available None;
           EvCall (history (Channels_incidents c) 50);
           EvDone (history (Channels_incidents c) 50) None]
      (exec P (await_each (crawl_requests c w1 messages)) s1 w1)) as Hrun.
  { subst run. unfold crawl_incidents, mbind, Prog_bind, crawl_limit.
    cbn [await bind exec]. rewrite Hwait. cbn [bind exec].
    unfold get_channel. rewrite bool_decide_eq_true_2 by done.
    cbn [bind exec]. rewrite Hhistory. cbn [bind failure_of].
    rewrite (crawl_loop_await_each P c w1) by done.
    by rewrite after_app. }
  split; [done|]. rewrite Hrun. cbn [after trace outcome app issued failures].
  split; [apply prefix_cons, prefix_cons, await_each_issued_prefix|].
  split; [apply await_each_no_failure|].
  split; [intros Hok; subst opening; cbn [app]; by rewrite await_each_returns|].
  split.
  { intros Hlen. unfold crawl_selected, crawl_limit in *.
    etrans; [apply length_filter|done]. }
  split; [done|]. split; [done|].
  split; [apply crawl_incidents_never_schedules|].
  split; [apply on_message_never_schedules|apply resolve_message_never_schedules].
Qed.

(** ** [resolve_message] *)

(** C6: once the guild is available, [resolve_message] returns a message of
    the cache at once, with no request to the platform; when the message is
    not in the cache it fetches it from the incidents channel, returns what
    the fetch gives, and returns [None] when the fetch raises an [Exception]
    (not found, forbidden, any HTTP or transport error) or when the channel
    is not resolved: no [Exception] ever leaves [resolve_message]. *)
Theorem resolve_message_cache_then_fetch (c : Config) (S : Type) (P : Platform S)
    (id : Z) (s s0 : S) (w w0 : World) :
  P wait_until_guild_available s w = (inr tt, s0, w0) ->
  let run := exec P (resolve_message c id) s w in
  let barrier :=
    [EvCall wait_until_guild_available; EvDone wait_until_guild_available None] in
  let fetch := fetch_message (Channels_incidents c) id in
  (forall found, _get_message w0 id = Some found ->
     run = {| trace := barrier; outcome := inr (Some found);
              final_state := s0; final_world := w0 |}) /\
  (forall fetched s1 w1,
     _get_message w0 id = None ->
     Channels_incidents c ∈ cached_channels w0 ->
     P fetch s0 w0 = (inr fetched, s1, w1) ->
     run = {| trace := barrier ++ [EvCall fetch; EvDone fetch None];
              outcome := inr (Some fetched);
              final_state := s1; final_world := w1 |}) /\
  (forall e s1 w1,
     _get_message w0 id = None ->
     Channels_incidents c ∈ cached_channels w0 ->
     P fetch s0 w0 = (inl e, s1, w1) ->
     isinstance_Exception e = true ->
     run = {| trace := barrier ++ [EvCall fetch; EvDone fetch (Some e)];
              outcome := inr None;
              final_state := s1; final_world := w1 |}) /\
  (_get_message w0 id = None ->
   Channels_incidents c ∉ cached_channels w0 ->
   run = {| trace := barrier; outcome := inr None;
            final_state := s0; final_world := w0 |}) /\
  (forall e, outcome run = inl e -> isinstance_Exception e = false) /\
  (isinstance_Exception NotFound = true /\
   isinstance_Exception Forbidden = true /\
   (forall status, isinstance_Exception (HTTPException status) = true) /\
   isinstance_Exception ClientError = true /\
   isinstance_Exception TimeoutError = true /\
   (forall name, isinstance_Exception (OtherException name) = true)).
Proof.
  intros Hwait run barrier fetch.
  assert (run =
    match _get_message w0 id with
    | Some found =>
        {| trace := barrier; outcome := inr (Some found);
           final_state := s0; final_world := w0 |}
    | None =>
        if bool_decide (Channels_incidents c ∈ cached_channels w0) then
          {| trace := barrier ++ [EvCall fetch;
                                  EvDone fetch (failure_of (P fetch s0 w0).1.1)];
             outcome :=
               match (P fetch s0 w0).1.1 with
               | inr fetched => inr (Some fetched)
               | inl e => if isinstance_Exception e then inr None else inl e
               end;
             final_state := (P fetch s0 w0).1.2;
             final_world := (P fetch s0 w0).2 |}
        else
          {| trace := barrier; outcome := inr None;
             final_state := s0; final_world := w0 |}
    end) as Hrun.
  { subst run. unfold resolve_message, mbind, Prog_bind.
    cbn [await bind exec]. rewrite Hwait. cbn [bind exec].
    destruct (_get_message w0 id) as [found|]; [done|].
    cbn [bind try_except exec]. unfold get_channel.
    case_bool_decide; cbn [bind await try_except exec isinstance_Exception];
      [|done].
    fold fetch. destruct (P fetch s0 w0) as [[[e|fetched] s1] w1];
      cbn [try_except exec fst snd failure_of]; [|done].
    by destruct (isinstance_Exception e). }
  repeat split; try done.
  - intros found Hhit. by rewrite Hrun, Hhit.
  - intros fetched s1 w1 Hmiss Hchannel Hfetch.
    by rewrite Hrun, Hmiss, bool_decide_eq_true_2, Hfetch.
  - intros e s1 w1 Hmiss Hchannel Hfetch Hexc.
    rewrite Hrun, Hmiss, bool_decide_eq_true_2, Hfetch by done.
    cbn [fst snd failure_of]. by rewrite Hexc.
  - intros Hmiss Hchannel. by rewrite Hrun, Hmiss, bool_decide_eq_false_2.
  - intros e. rewrite Hrun.
    destruct (_get_message w0 id); [done|].
    case_bool_decide; [|done]. cbn [outcome].
    destruct (P fetch s0 w0) as [[[e'|fetched] s1] w1]; cbn [fst]; [|done].
    destruct (isinstance_Exception e') eqn:He'; [done|]. congruence.
Qed.

(** ** [on_message] *)

Lemma on_message_may_call (Q : Call -> Prop) (c : Config) (message : MsgRef) :
  may_call Q (on_message c message) ->
  exists sig, Q (add_reaction message (Signal_value c sig)).
Proof.
  unfold on_message, inspect, mbind, Prog_bind. cbn [bind may_call].
  intros [w H]. destruct (is_incident c (objects w message)); [|done].
  by apply add_signals_may_call.
Qed.

Lemma crawl_incidents_may_call (Q : Call -> Prop) (c : Config) :
  may_call Q (crawl_incidents c) ->
  Q wait_until_guild_available \/ Q (history (Channels_incidents c) 50)
  \/ (exists message sig, Q (add_reaction message (Signal_value c sig)))
  \/ Q (sleep 2).
Proof.
  unfold crawl_incidents, mbind, Prog_bind, get_channel, crawl_limit.
  cbn [await bind may_call].
  intros [H|[[e|[]] H]]; [by left| |]; cbn [bind may_call] in H; [done|].
  destruct H as [w H]. case_bool_decide; [|done]. cbn [bind may_call] in H.
  destruct H as [H|[[e|messages] H]]; [by right; left| |];
    cbn [bind may_call] in H; [done|].
  right; right. by apply (crawl_loop_may_call Q c messages).
Qed.

Lemma resolve_message_may_call (Q : Call -> Prop) (c : Config) (id : Z) :
  may_call Q (resolve_message c id) ->
  Q wait_until_guild_available \/ Q (fetch_message (Channels_incidents c) id).
Proof.
  unfold resolve_message, mbind, Prog_bind, get_channel.
  cbn [await bind may_call].
  intros [H|[[e|[]] H]]; [by left| |]; cbn [bind may_call] in H; [done|].
  destruct H as [w H]. destruct (_get_message w id); [done|].
  cbn [bind try_except may_call] in H. destruct H as [w' H].
  case_bool_decide; cbn [bind try_except may_call isinstance_Exception] in H;
    [|done].
  destruct H as [H|[[e|fetched] H]]; [by right| |]; cbn [try_except] in H;
    [|done].
  by destruct (isinstance_Exception e).
Qed.

(** C7: on every message it is given, of whatever channel, the listener
    behaves as [add_signals] on that message when [is_incident] holds of it,
    and does nothing at all when it does not. *)
Theorem on_message_iff_incident (c : Config) (S : Type) (P : Platform S)
    (message : MsgRef) (s : S) (w : World) :
  exec P (on_message c message) s w =
    (if is_incident c (objects w message)
     then exec P (add_signals c message) s w
     else {| trace := []; outcome := inr tt;
             final_state := s; final_world := w |}) /\
  (forall call, call ∈ issued (trace (exec P (on_message c message) s w)) ->
     is_incident c (objects w message) = true /\
     exists sig, call = add_reaction message (Signal_value c sig)).
Proof.
  assert (exec P (on_message c message) s w =
    (if is_incident c (objects w message)
     then exec P (add_signals c message) s w
     else {| trace := []; outcome := inr tt;
             final_state := s; final_world := w |})) as Hrun.
  { unfold on_message, inspect, mbind, Prog_bind. cbn [bind exec].
    by destruct (is_incident c (objects w message)). }
  split; [done|]. intros call Hcall. split.
  - rewrite Hrun in Hcall. destruct (is_incident c (objects w message)); [done|].
    by apply elem_of_nil in Hcall.
  - apply exec_issued_may_call in Hcall. by apply on_message_may_call in Hcall.
Qed.

(** C8: no execution of the listener, whatever it reads and whatever the
    platform answers, awaits the event lock, and neither does the crawl or
    [resolve_message]: the lock the constructor creates is never taken, so
    the listener adds its signals without it while the crawl runs. *)
Theorem on_message_never_locks (c : Config) (message : MsgRef) :
  ~ may_call (eq event_lock_acquire) (on_message c message) /\
  (forall (S : Type) (P : Platform S) (s : S) (w : World),
     event_lock_acquire ∉ issued (trace (exec P (on_message c message) s w))) /\
  ~ may_call (eq event_lock_acquire) (crawl_incidents c) /\
  (forall id, ~ may_call (eq event_lock_acquire) (resolve_message c id)) /\
  ~ may_call (eq event_lock_acquire) Incidents__init__ /\
  (forall (S : Type) (P : Platform S) (s : S) (w : World),
     outcome (exec P Incidents__init__ s w)
     = inr {| event_lock := {| locked := false |};
              crawl_task := Coro_crawl_incidents |}).
Proof.
  split; [|split; [|split; [|split; [|split]]]].
  - by intros [sig H]%on_message_may_call.
  - intros S P s w Hin.
    apply exec_issued_may_call in Hin. by apply on_message_may_call in Hin as [sig H].
  - intros [H|[H|[(m & sig & H)|H]]]%crawl_incidents_may_call; done.
  - intros id [H|H]%resolve_message_may_call; done.
  - simpl. tauto.
  - done.
Qed.

(** ** The allowed roles *)

Lemma Signal_value_roles (c1 c2 : Config) (sig : Signal) :
  same_but_roles c1 c2 -> Signal_value c1 sig = Signal_value c2 sig.
Proof. intros (_ & H1 & H2 & H3). by destruct sig. Qed.

Lemma enum_members_roles (c1 c2 : Config) (seen : list string) (decl : list Signal) :
  same_but_roles c1 c2 -> enum_members c1 seen decl = enum_members c2 seen decl.
Proof.
  intros Hsame. revert seen.
  induction decl as [|sig decl IH]; intros seen; cbn [enum_members]; [done|].
  rewrite (Signal_value_roles c1 c2 sig Hsame). by rewrite !IH.
Qed.

Lemma Signal_members_roles (c1 c2 : Config) :
  same_but_roles c1 c2 -> Signal_members c1 = Signal_members c2.
Proof. apply enum_members_roles. Qed.

Lemma ALLOWED_EMOJI_roles (c1 c2 : Config) :
  same_but_roles c1 c2 -> ALLOWED_EMOJI c1 = ALLOWED_EMOJI c2.
Proof.
  intros Hsame. unfold ALLOWED_EMOJI.
  rewrite (Signal_members_roles c1 c2 Hsame). f_equal.
  apply map_ext. intros sig. by apply Signal_value_roles.
Qed.

Lemma add_signals_loop_roles (c1 c2 : Config) (incident : MsgRef)
    (existing_reacts : gset string) (signals : list Signal) :
  same_but_roles c1 c2 ->
  add_signals_loop c1 incident existing_reacts signals
  = add_signals_loop c2 incident existing_reacts signals.
Proof.
  intros Hsame. induction signals as [|sig signals IH]; [done|].
  cbn [add_signals_loop].
  by rewrite (Signal_value_roles c1 c2 sig Hsame), IH.
Qed.

Lemma is_incident_roles (c1 c2 : Config) (m : Message) :
  same_but_roles c1 c2 -> is_incident c1 m = is_incident c2 m.
Proof. intros (H & _). unfold is_incident. by rewrite H. Qed.

Lemma has_signals_roles (c1 c2 : Config) (m : Message) :
  same_but_roles c1 c2 -> has_signals c1 m = has_signals c2 m.
Proof.
  intros Hsame. unfold has_signals. by rewrite (ALLOWED_EMOJI_roles c1 c2 Hsame).
Qed.

Lemma add_signals_roles {S : Type} (P : Platform S) (c1 c2 : Config)
    (incident : MsgRef) (s : S) (w : World) :
  same_but_roles c1 c2 ->
  exec P (add_signals c1 incident) s w = exec P (add_signals c2 incident) s w.
Proof.
  intros Hsame. unfold add_signals, inspect, mbind, Prog_bind. cbn [bind exec].
  by rewrite (Signal_members_roles c1 c2 Hsame),
             (add_signals_loop_roles c1 c2 _ _ _ Hsame).
Qed.

Lemma crawl_loop_roles {S : Type} (P : Platform S) (c1 c2 : Config)
    (messages : list MsgRef) (s : S) (w : World) :
  same_but_roles c1 c2 ->
  exec P (crawl_loop c1 messages) s w = exec P (crawl_loop c2 messages) s w.
Proof.
  intros Hsame. revert s w.
  induction messages as [|message rest IH]; intros s w; [done|].
  cbn [crawl_loop]. unfold inspect, mbind, Prog_bind. cbn [bind exec].
  rewrite (is_incident_roles c1 c2 _ Hsame).
  destruct (is_incident c2 (objects w message)); cbn [negb]; [|apply IH].
  cbn [bind exec]. rewrite (has_signals_roles c1 c2 _ Hsame).
  destruct (has_signals c2 (objects w message)); [apply IH|].
  rewrite !(exec_bind P (add_signals _ message)).
  rewrite (add_signals_roles P c1 c2 message s w Hsame).
  destruct (exec P (add_signals c2 message) s w) as [tr [e|[]] s' w'];
    cbn [outcome trace final_state final_world]; [done|].
  f_equal. rewrite !exec_await_bind.
  destruct (P (sleep crawl_sleep) s' w') as [[[e|x] s''] w'']; cbn [fst snd];
    [done|].
  f_equal. apply IH.
Qed.

Lemma crawl_incidents_roles {S : Type} (P : Platform S) (c1 c2 : Config)
    (s : S) (w : World) :
  same_but_roles c1 c2 ->
  exec P (crawl_incidents c1) s w = exec P (crawl_incidents c2) s w.
Proof.
  intros Hsame. pose proof Hsame as (Hchannel & _).
  unfold crawl_incidents, mbind, Prog_bind. cbn [await bind exec].
  destruct (P wait_until_guild_available s w) as [[[e|[]] s0] w0];
    cbn [bind exec]; [done|].
  rewrite Hchannel.
  destruct (get_channel w0 (Channels_incidents c2)) as [channel|]; [|done].
  cbn [bind exec].
  destruct (P (history channel crawl_limit) s0 w0) as [[[e|messages] s1] w1];
    cbn [bind exec]; [done|].
  by rewrite (crawl_loop_roles P c1 c2 messages s1 w1 Hsame).
Qed.

Lemma resolve_message_roles (c1 c2 : Config) (id : Z) :
  same_but_roles c1 c2 -> resolve_message c1 id = resolve_message c2 id.
Proof. intros (Hchannel & _). unfold resolve_message. by rewrite Hchannel. Qed.

Lemma on_message_roles {S : Type} (P : Platform S) (c1 c2 : Config)
    (message : MsgRef) (s : S) (w : World) :
  same_but_roles c1 c2 ->
  exec P (on_message c1 message) s w = exec P (on_message c2 message) s w.
Proof.
  intros Hsame. unfold on_message, inspect, mbind, Prog_bind. cbn [bind exec].
  rewrite (is_incident_roles c1 c2 _ Hsame).
  destruct (is_incident c2 (objects w message)); [|done].
  by apply add_signals_roles.
Qed.

(** C9: two configurations that differ only in the moderator, admin and owner
    roles give the same classification, the same allowed emoji and the same
    answer of [has_signals] ([own_reactions] takes no configuration at all),
    and on every platform the same run, request for request, of
    [add_signals], of the crawl, of [resolve_message] and of the listener. *)
Theorem roles_are_not_consulted (c1 c2 : Config) :
  same_but_roles c1 c2 ->
  (forall m, is_incident c1 m = is_incident c2 m) /\
  ALLOWED_EMOJI c1 = ALLOWED_EMOJI c2 /\
  (forall m, has_signals c1 m = has_signals c2 m) /\
  (forall (S : Type) (P : Platform S) (s : S) (w : World),
     (forall incident,
        exec P (add_signals c1 incident) s w
        = exec P (add_signals c2 incident) s w) /\
     exec P (crawl_incidents c1) s w = exec P (crawl_incidents c2) s w /\
     (forall id,
        exec P (resolve_message c1 id) s w
        = exec P (resolve_message c2 id) s w) /\
     (forall message,
        exec P (on_message c1 message) s w
        = exec P (on_message c2 message) s w)).
Proof.
  intros Hsame.
  split; [intros m; by apply is_incident_roles|].
  split; [by apply ALLOWED_EMOJI_roles|].
  split; [intros m; by apply has_signals_roles|].
  intros S P s w.
  split; [intros incident; by apply add_signals_roles|].
  split; [by apply crawl_incidents_roles|].
  split; [intros id; by rewrite (resolve_message_roles c1 c2 id Hsame)|].
  intros message. by apply on_message_roles.
Qed.

(** ** Messages without text *)

(** A run of [add_signals] that returns leaves every signal on the message,
    on a platform that records the bot's reactions. *)
Lemma add_signals_completes {S : Type} (P : Platform S) (c : Config)
    (incident : MsgRef) (s : S) (w : World) :
  records_reactions P ->
  outcome (exec P (add_signals c incident) s w) = inr tt ->
  has_signals c
    (objects (final_world (exec P (add_signals c incident) s w)) incident) = true.
Proof.
  intros Hrec Hok. apply has_signals_subseteq.
  unfold add_signals, inspect, mbind, Prog_bind in *. cbn [bind exec] in *.
  destruct (add_signals_loop_places P c incident _ (Signal_members c) s w
              Hrec (reflexivity _) Hok) as [_ Hall].
  intros e (sig & -> & Hsig)%elem_of_list_to_set%list_elem_of_fmap.
  by apply Hall.
Qed.

(** C10: a message of the incidents channel with no text, whose author is not
    a bot and which is not pinned, is an incident; the listener then adds
    the signals the message lacks, all three (Actioned, NotActioned,
    Investigating) when it has no reaction yet, and when the run returns on
    a platform that records the reactions the message has all the signals. *)
Theorem empty_content_is_incident (c : Config) (m : Message) :
  channel_id m = Channels_incidents c ->
  author_bot m = false ->
  content m = "" ->
  pinned m = false ->
  is_incident c m = true /\
  (forall (S : Type) (P : Platform S) (message : MsgRef) (s : S) (w : World),
     objects w message = m ->
     let run := exec P (on_message c message) s w in
     run = exec P (await_each (map (add_reaction message)
                     (missing_emoji c (own_reactions m)))) s w /\
     (emoji_distinct c -> reactions m = [] ->
        missing_emoji c (own_reactions m) =
          [Emojis_incident_actioned c; Emojis_incident_unactioned c;
           Emojis_incident_investigating c]) /\
     (records_reactions P -> outcome run = inr tt ->
        has_signals c (objects (final_world run) message) = true)).
Proof.
  intros Hchannel Hbot Hcontent Hpinned.
  assert (is_incident c m = true) as Hinc.
  { apply is_incident_spec. rewrite Hcontent. by repeat split. }
  split; [done|]. intros S P message s w Hm run.
  assert (run = exec P (add_signals c message) s w) as Hrun.
  { subst run. unfold on_message, inspect, mbind, Prog_bind. cbn [bind exec].
    by rewrite Hm, Hinc. }
  split; [by rewrite Hrun, add_signals_await_each, Hm|].
  split.
  - intros Hd Hnone. unfold missing_emoji, own_reactions.
    rewrite (Signal_members_distinct c Hd), Hnone. cbn [map Signal_value].
    rewrite !filter_cons, filter_nil.
    by rewrite !decide_True by apply not_elem_of_empty.
  - intros Hrec. rewrite Hrun. by apply add_signals_completes.
Qed.

(** ** The simulated platform *)

Lemma own_reactions_mark_own (e : string) (m : Message) :
  own_reactions (with_reactions (mark_own e (reactions m)) m)
  = {[e]} ∪ own_reactions m.
Proof.
  unfold own_reactions. cbn [reactions with_reactions].
  induction (reactions m) as [|r rs IH]; cbn [mark_own].
  - rewrite filter_cons, decide_True by done. cbn [map list_to_set emoji].
    by rewrite filter_nil.
  - case_bool_decide as Hr.
    + rewrite !filter_cons, decide_True by done. cbn [map list_to_set emoji].
      destruct (decide (me r = true)); cbn [map list_to_set]; [|done].
      rewrite Hr. set_solver.
    + rewrite !filter_cons.
      destruct (decide (me r = true)); cbn [map list_to_set]; [|done].
      rewrite IH. set_solver.
Qed.

Lemma simulate_records : records_reactions (simulate true).
Proof.
  intros incident e s s' w w' H. cbn [simulate] in H.
  case_bool_decide; [done|]. injection H as <- <-.
  cbn [record_reaction objects]. rewrite bool_decide_eq_true_2 by done.
  rewrite own_reactions_mark_own. set_solver.
Qed.

Lemma simulate_undisturbed (records : bool) (messages : list MsgRef) :
  history_undisturbed (simulate records) messages.
Proof.
  intros call s w message _ Hcall.
  destruct call; cbn [simulate disturbs snd] in *; try done.
  case_bool_decide; [done|]. destruct records; [|done].
  cbn [snd record_reaction objects]. by rewrite bool_decide_eq_false_2.
Qed.

(** The own reactions are read once: when the message has all the signals
    by the time the first request is through, [add_signals] still issues the
    requests it settled on when it was called. *)
Example add_signals_reads_reactions_once :
  has_signals example_config
    (objects (simulate_racing (add_reaction 5%nat "actioned")
                example_sim example_world).2 5%nat) = true /\
  issued (trace (exec simulate_racing (add_signals example_config 5%nat)
                   example_sim example_world))
  = [add_reaction 5%nat "actioned"; add_reaction 5%nat "unactioned";
     add_reaction 5%nat "investigating"].
Proof. split; reflexivity. Qed.

(** A failed request ends [add_signals]: the exception is raised in the
    caller and the later signals are not requested. *)
Example add_signals_stops_at_failure :
  let run :=
    exec (simulate true) (add_signals example_config 5%nat)
      {| sim_history := []; sim_fetch := inl NotFound;
         sim_reject := ["unactioned"] |} example_world in
  outcome run = inl Forbidden /\
  issued (trace run)
  = [add_reaction 5%nat "actioned"; add_reaction 5%nat "unactioned"].
Proof. split; reflexivity. Qed.

(** Cancellation is not an [Exception]: it leaves [resolve_message]. *)
Example resolve_message_cancelled :
  outcome (exec (simulate true) (resolve_message example_config 999)
             {| sim_history := []; sim_fetch := inl CancelledError;
                sim_reject := [] |} example_world)
  = inl CancelledError.
Proof. reflexivity. Qed.

(** Two names of [Signal] with one value are one member. *)
Example Signal_members_alias :
  Signal_members
    {| Channels_incidents := 7;
       Emojis_incident_actioned := "done";
       Emojis_incident_unactioned := "done";
       Emojis_incident_investigating := "investigating";
       Roles_moderators := 1; Roles_admins := 2; Roles_owners := 3 |}
  = [ACTIONED; INVESTIGATING].
Proof. reflexivity. Qed.

(** ** The theorems on the example *)

(** The third message of the example qualifies, and each single change disqualifies it. *)
Lemma is_incident_four_conditions_witness :
  is_incident example_config (example_message 2%nat) = true /\
  is_incident example_config (with_channel 8 (example_message 2%nat)) = false /\
  is_incident example_config (with_author_bot true (example_message 2%nat)) = false /\
  is_incident example_config
    (with_content "#outage report" (example_message 2%nat)) = false /\
  is_incident example_config (with_pinned true (example_message 2%nat)) = false.
Proof.
  assert (is_incident example_config (example_message 2%nat) = true) as Hq
    by reflexivity.
  destruct (is_incident_four_conditions example_config (example_message 2%nat))
    as [_ Hflip].
  destruct (Hflip Hq) as (Hchannel & Hbot & Hcontent & Hpinned).
  split; [exact Hq|]. split; [apply Hchannel; discriminate|].
  split; [exact Hbot|]. split; [apply Hcontent | exact Hpinned].
Defined.

(** On the message without reactions the three requests go out in the order of the enumeration. *)
Lemma add_signals_in_order_witness :
  emoji_distinct example_config /\
  outcome (exec (simulate true) (add_signals example_config 5%nat)
             example_sim example_world) = inr tt /\
  issued (trace (exec (simulate true) (add_signals example_config 5%nat)
                   example_sim example_world))
  = [add_reaction 5%nat "actioned"; add_reaction 5%nat "unactioned";
     add_reaction 5%nat "investigating"].
Proof.
  assert (emoji_distinct example_config) as Hd
    by (repeat split; discriminate).
  assert (outcome (exec (simulate true) (add_signals example_config 5%nat)
                     example_sim example_world) = inr tt) as Hok
    by reflexivity.
  destruct (add_signals_in_order example_config Sim (simulate true) 5%nat
              example_sim example_world)
    as (Hthree & _ & _ & _ & _ & Hall & _).
  split; [exact Hd|]. split; [exact Hok|].
  rewrite (Hall Hok), (Hthree Hd). reflexivity.
Defined.

(** A second [add_signals] on the third message of the example issues nothing. *)
Lemma add_signals_idempotent_witness :
  records_reactions (simulate true) /\
  trace (exec (simulate true) (add_signals example_config 2%nat)
           (final_state (exec (simulate true) (add_signals example_config 2%nat)
                           example_sim example_world))
           (final_world (exec (simulate true) (add_signals example_config 2%nat)
                           example_sim example_world))) = [].
Proof.
  split; [exact simulate_records|].
  destruct (add_signals_idempotent example_config Sim (simulate true) 2%nat
              example_sim example_world simulate_records)
    as (_ & _ & Hsecond).
  destruct (Hsecond eq_refl) as (Htrace & _). exact Htrace.
Defined.

(** On the example history the crawl works on the third message only: one reaction, one delay. *)
Lemma crawl_incidents_run_witness :
  issued (trace (exec (simulate true) (crawl_incidents example_config)
                   example_sim example_world))
  = [wait_until_guild_available; history 7 50;
     add_reaction 2%nat "investigating"; sleep 2].
Proof.
  assert (NoDup [0%nat; 1%nat; 2%nat; 3%nat; 4%nat]) as Hnd
    by (apply (bool_decide_unpack _); vm_compute; exact I).
  assert (Channels_incidents example_config ∈ cached_channels example_world)
    as Hchannel by (apply (bool_decide_unpack _); vm_compute; exact I).
  destruct (crawl_incidents_run example_config Sim (simulate true)
              example_sim example_sim example_sim
              example_world example_world example_world
              [0%nat; 1%nat; 2%nat; 3%nat; 4%nat]
              eq_refl Hchannel eq_refl Hnd (simulate_undisturbed true _))
    as (_ & _ & _ & Hall & _).
  rewrite (Hall eq_refl). reflexivity.
Defined.

(** A cached message is returned after the barrier alone; a message that is not found gives [None]. *)
Lemma resolve_message_cache_then_fetch_witness :
  outcome (exec (simulate true) (resolve_message example_config 102)
             example_sim example_world) = inr (Some 2%nat) /\
  issued (trace (exec (simulate true) (resolve_message example_config 102)
                   example_sim example_world)) = [wait_until_guild_available] /\
  outcome (exec (simulate true) (resolve_message example_config 999)
             example_sim example_world) = inr None.
Proof.
  destruct (resolve_message_cache_then_fetch example_config Sim (simulate true)
              102 example_sim example_sim example_world example_world eq_refl)
    as (Hhit & _).
  destruct (resolve_message_cache_then_fetch example_config Sim (simulate true)
              999 example_sim example_sim example_world example_world eq_refl)
    as (_ & _ & Hfail & _).
  assert (Channels_incidents example_config ∈ cached_channels example_world)
    as Hchannel by (apply (bool_decide_unpack _); vm_compute; exact I).
  rewrite (Hhit 2%nat eq_refl).
  rewrite (Hfail NotFound example_sim example_world eq_refl Hchannel eq_refl eq_refl).
  repeat split.
Defined.

(** The request the listener issues on the third message is a signal of an incident. *)
Lemma on_message_iff_incident_witness :
  is_incident example_config (objects example_world 2%nat) = true /\
  exists sig,
    add_reaction 2%nat "investigating"
    = add_reaction 2%nat (Signal_value example_config sig).
Proof.
  apply (on_message_iff_incident example_config Sim (simulate true) 2%nat
           example_sim example_world).
  vm_compute. constructor.
Defined.

(** The crawl runs the same under other roles. *)
Lemma roles_are_not_consulted_witness :
  same_but_roles example_config example_config_other_roles /\
  exec (simulate true) (crawl_incidents example_config) example_sim example_world
  = exec (simulate true) (crawl_incidents example_config_other_roles)
      example_sim example_world.
Proof.
  assert (same_but_roles example_config example_config_other_roles) as Hsame
    by (repeat split).
  split; [exact Hsame|].
  destruct (roles_are_not_consulted example_config example_config_other_roles
              Hsame) as (_ & _ & _ & Hruns).
  apply (Hruns Sim (simulate true) example_sim example_world).
Defined.

(** The message without text is an incident and ends with all the signals. *)
Lemma empty_content_is_incident_witness :
  content (example_message 5%nat) = "" /\
  is_incident example_config (example_message 5%nat) = true /\
  has_signals example_config
    (objects (final_world (exec (simulate true) (on_message example_config 5%nat)
                             example_sim example_world)) 5%nat) = true.
Proof.
  destruct (empty_content_is_incident example_config (example_message 5%nat)
              eq_refl eq_refl eq_refl eq_refl) as (Hinc & Hrun).
  destruct (Hrun Sim (simulate true) 5%nat example_sim example_world eq_refl)
    as (_ & _ & Hall).
  split; [reflexivity|]. split; [exact Hinc|].
  apply Hall; [exact simulate_records | reflexivity].
Defined.

(** * Further properties *)

(** ** The signals a message has *)

Lemma ALLOWED_EMOJI_three (c : Config) :
  ALLOWED_EMOJI c =
  {[ Emojis_incident_actioned c; Emojis_incident_unactioned c;
     Emojis_incident_investigating c ]}.
Proof.
  apply set_eq. intros e. rewrite elem_of_ALLOWED_EMOJI.
  rewrite !elem_of_union, !elem_of_singleton. split.
  - intros [[] ->]; tauto.
  - intros [[->| ->]| ->];
      [by exists ACTIONED | by exists NOT_ACTIONED | by exists INVESTIGATING].
Qed.

(** X1: [has_signals] holds exactly when the bot itself has reacted with each of
    the three configured emoji, whether or not two of them coincide; the
    reactions of others do not count, so a message on which only others have
    reacted does not have its signals. *)
Theorem has_signals_three_emoji (c : Config) (m : Message) :
  (has_signals c m = true <->
     Emojis_incident_actioned c ∈ own_reactions m /\
     Emojis_incident_unactioned c ∈ own_reactions m /\
     Emojis_incident_investigating c ∈ own_reactions m) /\
  ((forall r, r ∈ reactions m -> me r = false) -> has_signals c m = false).
Proof.
  assert (has_signals c m = true <->
     Emojis_incident_actioned c ∈ own_reactions m /\
     Emojis_incident_unactioned c ∈ own_reactions m /\
     Emojis_incident_investigating c ∈ own_reactions m) as Hiff.
  { rewrite has_signals_subseteq, ALLOWED_EMOJI_three. split.
    - intros Hsub. repeat split; apply Hsub; set_solver.
    - intros (H1 & H2 & H3) e. rewrite !elem_of_union, !elem_of_singleton.
      intros [[->| ->]| ->]; done. }
  split; [done|]. intros Hothers. apply not_true_is_false.
  intros (Hact & _)%Hiff.
  apply elem_of_own_reactions in Hact as (r & Hr & Hme & _).
  rewrite (Hothers r Hr) in Hme. discriminate.
Qed.

(** ** What [add_signals] asks for *)

Lemma elem_of_missing_emoji (c : Config) (existing_reacts : gset string)
    (e : string) :
  e ∈ missing_emoji c existing_reacts <->
  e ∈ ALLOWED_EMOJI c /\ e ∉ existing_reacts.
Proof.
  unfold missing_emoji, ALLOWED_EMOJI.
  rewrite list_elem_of_filter, elem_of_list_to_set. tauto.
Qed.

Lemma missing_emoji_nil (c : Config) (m : Message) :
  missing_emoji c (own_reactions m) = [] <-> has_signals c m = true.
Proof.
  rewrite has_signals_subseteq. split.
  - intros Hnil e He. destruct (decide (e ∈ own_reactions m)) as [|Hno]; [done|].
    assert (e ∈ missing_emoji c (own_reactions m)) as Hin
      by (by apply elem_of_missing_emoji).
    rewrite Hnil in Hin. by apply elem_of_nil in Hin.
  - intros Hsub. destruct (missing_emoji c (own_reactions m)) as [|e l] eqn:Heq;
      [done|].
    assert (e ∈ missing_emoji c (own_reactions m)) as Hin
      by (rewrite Heq; left).
    apply elem_of_missing_emoji in Hin as [He Hno]. by destruct Hno; apply Hsub.
Qed.

(** X2: On every platform, [add_signals] issues no request at all exactly when
    [has_signals] holds of the message as it is at the call, and then it
    returns at once and leaves the platform and the runtime as they were:
    the test the crawl skips on is the test for [add_signals] having
    nothing to do. *)
Theorem add_signals_silent_iff_has_signals (c : Config) (S : Type)
    (P : Platform S) (incident : MsgRef) (s : S) (w : World) :
  (issued (trace (exec P (add_signals c incident) s w)) = [] <->
   has_signals c (objects w incident) = true) /\
  (has_signals c (objects w incident) = true ->
   exec P (add_signals c incident) s w =
     {| trace := []; outcome := inr tt; final_state := s; final_world := w |}).
Proof.
  rewrite add_signals_await_each, <- missing_emoji_nil.
  destruct (missing_emoji c (own_reactions (objects w incident))) as [|e l].
  - done.
  - cbn [map await_each]. unfold mbind, Prog_bind. rewrite exec_await_bind.
    cbn [after trace issued app]. split; [split|]; done.
Qed.

Lemma length_enum_members (c : Config) (seen : list string) (decl : list Signal) :
  (length (enum_members c seen decl) <= length decl)%nat.
Proof.
  revert seen. induction decl as [|sig decl IH]; intros seen;
    cbn [enum_members length]; [done|].
  case_bool_decide; cbn [length]; [|apply le_n_S, IH].
  etrans; [apply IH|lia].
Qed.

Lemma length_missing_emoji (c : Config) (existing_reacts : gset string) :
  (length (missing_emoji c existing_reacts) <= 3)%nat.
Proof.
  unfold missing_emoji. etrans; [apply length_filter|].
  rewrite length_map. apply (length_enum_members c [] Signal_declared).
Qed.

Lemma add_signals_issued_bound {S : Type} (P : Platform S) (c : Config)
    (incident : MsgRef) (s : S) (w : World) :
  (length (issued (trace (exec P (add_signals c incident) s w))) <= 3)%nat.
Proof.
  rewrite add_signals_await_each.
  etrans; [apply prefix_length, await_each_issued_prefix|].
  rewrite length_map. apply length_missing_emoji.
Qed.

(** ** One round of the crawl *)

Lemma issued_app (tr1 tr2 : list Event) :
  issued (tr1 ++ tr2) = issued tr1 ++ issued tr2.
Proof.
  induction tr1 as [|[call|call f|t] tr1 IH]; cbn [app issued]; [done| |done|done].
  by rewrite IH.
Qed.

Lemma failures_app (tr1 tr2 : list Event) :
  failures (tr1 ++ tr2) = failures tr1 ++ failures tr2.
Proof.
  induction tr1 as [|[call|call [e|]|t] tr1 IH]; cbn [app failures];
    [done|done| |done|done].
  by rewrite IH.
Qed.

(** The run of the crawl on a message and the rest of the history: nothing
    for a message it skips; otherwise [add_signals], the delay when that has
    returned, and the rest when the delay has returned. *)
Lemma exec_crawl_loop_cons {S : Type} (P : Platform S) (c : Config)
    (message : MsgRef) (rest : list MsgRef) (s : S) (w : World) :
  exec P (crawl_loop c (message :: rest)) s w =
  if needs_signals c (objects w message) then
    let first := exec P (add_signals c message) s w in
    match outcome first with
    | inl e =>
        {| trace := trace first; outcome := inl e;
           final_state := final_state first; final_world := final_world first |}
    | inr _ =>
        let pause := P (sleep 2) (final_state first) (final_world first) in
        after (trace first ++ [EvCall (sleep 2);
                               EvDone (sleep 2) (failure_of pause.1.1)])
          match pause.1.1 with
          | inl e =>
              {| trace := []; outcome := inl e; final_state := pause.1.2;
                 final_world := pause.2 |}
          | inr _ => exec P (crawl_loop c rest) pause.1.2 pause.2
          end
    end
  else exec P (crawl_loop c rest) s w.
Proof.
  cbn [crawl_loop]. unfold needs_signals, inspect, mbind, Prog_bind.
  cbn [bind exec].
  destruct (is_incident c (objects w message)); cbn [negb andb]; [|done].
  cbn [bind exec].
  destruct (has_signals c (objects w message)); cbn [negb]; [done|].
  rewrite (exec_bind P (add_signals c message)). cbv zeta.
  destruct (outcome (exec P (add_signals c message) s w)) as [e|[]]; [done|].
  rewrite exec_await_bind, after_app. unfold crawl_sleep. done.
Qed.

(** ** How many requests *)

Lemma crawl_loop_issued_bound {S : Type} (P : Platform S) (c : Config)
    (messages : list MsgRef) (s : S) (w : World) :
  (length (issued (trace (exec P (crawl_loop c messages) s w)))
   <= 4 * length messages)%nat.
Proof.
  revert s w. induction messages as [|message rest IH]; intros s w;
    [cbn; lia|].
  rewrite exec_crawl_loop_cons. cbn [length].
  destruct (needs_signals c (objects w message));
    [|etrans; [apply IH|lia]].
  cbv zeta. pose proof (add_signals_issued_bound P c message s w) as Hfirst.
  destruct (exec P (add_signals c message) s w) as [tr [e|[]] s' w'];
    cbn [outcome trace final_state final_world] in *; [lia|].
  destruct (P (sleep 2) s' w') as [[[e|x] s''] w''];
    cbn [fst snd after trace]; rewrite !issued_app, !length_app;
    cbn [issued length]; [lia|].
  specialize (IH s'' w''). lia.
Qed.

(** X3: On every platform [add_signals], and so the listener, issues at most
    three requests. *)
Theorem add_signals_at_most_three_requests (c : Config) (S : Type)
    (P : Platform S) (message : MsgRef) (s : S) (w : World) :
  (length (issued (trace (exec P (add_signals c message) s w))) <= 3)%nat /\
  (length (issued (trace (exec P (on_message c message) s w))) <= 3)%nat.
Proof.
  split; [apply add_signals_issued_bound|].
  unfold on_message, inspect, mbind, Prog_bind. cbn [bind exec].
  destruct (is_incident c (objects w message));
    [apply add_signals_issued_bound | cbn; lia].
Qed.

(** X4: On a platform that keeps to the limit of a history request, the whole
    crawl issues at most 202 requests: the barrier, the history, and for
    each of at most 50 messages three reactions and a delay. *)
Theorem crawl_incidents_at_most_202_requests (c : Config) (S : Type)
    (P : Platform S) (s : S) (w : World) :
  honours_limit P ->
  (length (issued (trace (exec P (crawl_incidents c) s w))) <= 202)%nat.
Proof.
  intros Hlimit. unfold crawl_incidents, mbind, Prog_bind.
  cbn [await bind exec].
  destruct (P wait_until_guild_available s w) as [[[e|[]] s0] w0];
    cbn [bind exec after trace app issued length]; [lia|].
  destruct (get_channel w0 (Channels_incidents c)) as [channel|];
    cbn [bind exec after trace app issued length]; [|lia].
  destruct (P (history channel crawl_limit) s0 w0) as [[[e|messages] s1] w1]
    eqn:Hhistory; cbn [bind exec after trace app issued length]; [lia|].
  pose proof (Hlimit _ _ _ _ _ _ _ Hhistory) as Hlen.
  pose proof (crawl_loop_issued_bound P c messages s1 w1) as Hloop.
  unfold crawl_limit in Hlen. lia.
Qed.

(** ** Failures *)

Lemma fails_fast_bind {S A B : Type} (P : Platform S) (own : Exn -> Prop)
    (p : Prog A) (f : A -> Prog B) (s : S) (w : World) :
  fails_fast own (exec P p s w) ->
  (forall a s' w', fails_fast own (exec P (f a) s' w')) ->
  fails_fast own (exec P (bind p f) s w).
Proof.
  intros Hp Hf. rewrite exec_bind. unfold fails_fast in *.
  destruct (exec P p s w) as [tr1 [e|a] s1 w1];
    cbn [outcome trace final_state final_world after] in *; [done|].
  specialize (Hf a s1 w1).
  destruct (exec P (f a) s1 w1) as [tr2 [e|b] s2 w2];
    cbn [outcome trace] in *.
  - destruct Hf as [(tr & call & -> & Htr)|[Hown Htr]].
    + left. exists (tr1 ++ tr), call. rewrite app_assoc, failures_app, Hp, Htr.
      done.
    + right. by rewrite failures_app, Hp, Htr.
  - by rewrite failures_app, Hp, Hf.
Qed.

Lemma fails_fast_await {S : Type} (P : Platform S) (own : Exn -> Prop)
    (call : Call) (s : S) (w : World) :
  fails_fast own (exec P (await call) s w).
Proof.
  unfold fails_fast, await. cbn [exec].
  destruct (P call s w) as [[[e|x] s'] w']; cbn; [|done].
  left. by exists [EvCall call], call.
Qed.

Lemma fails_fast_inspect {S A : Type} (P : Platform S) (own : Exn -> Prop)
    (f : Message -> A) (message : MsgRef) (s : S) (w : World) :
  fails_fast own (exec P (inspect f message) s w).
Proof. done. Qed.

Lemma fails_fast_add_signals {S : Type} (P : Platform S) (own : Exn -> Prop)
    (c : Config) (incident : MsgRef) (s : S) (w : World) :
  fails_fast own (exec P (add_signals c incident) s w).
Proof.
  rewrite add_signals_await_each.
  generalize (map (add_reaction incident)
                (missing_emoji c (own_reactions (objects w incident)))).
  intros calls. revert s w. induction calls as [|call calls IH]; intros s w.
  - done.
  - cbn [await_each]. unfold mbind, Prog_bind.
    apply fails_fast_bind; [apply fails_fast_await|]. intros _ s' w'. apply IH.
Qed.

Lemma fails_fast_crawl_loop {S : Type} (P : Platform S) (own : Exn -> Prop)
    (c : Config) (messages : list MsgRef) (s : S) (w : World) :
  fails_fast own (exec P (crawl_loop c messages) s w).
Proof.
  revert s w. induction messages as [|message rest IH]; intros s w; [done|].
  cbn [crawl_loop]. unfold mbind, Prog_bind.
  apply fails_fast_bind; [apply fails_fast_inspect|].
  intros [] s1 w1; cbn [negb]; [|apply IH].
  apply fails_fast_bind; [apply fails_fast_inspect|].
  intros [] s2 w2; [apply IH|].
  apply fails_fast_bind; [apply fails_fast_add_signals|]. intros _ s3 w3.
  apply fails_fast_bind; [apply fails_fast_await|]. intros _ s4 w4. apply IH.
Qed.

(** X5: [add_signals] handles no error: on every platform a run that returns has
    seen no request fail, and a run that raises ends on the one request that
    failed and raises its exception. *)
Theorem add_signals_raises_first_failure (c : Config) (S : Type)
    (P : Platform S) (incident : MsgRef) (s : S) (w : World) :
  let run := exec P (add_signals c incident) s w in
  fails_fast (fun _ => False) run /\
  (forall e, outcome run = inl e ->
     failures (trace run) = [e] /\
     exists tr call, trace run = tr ++ [EvDone call (Some e)]).
Proof.
  intros run.
  assert (fails_fast (fun _ => False) run) as Hff
    by apply fails_fast_add_signals.
  split; [done|]. intros e He. unfold fails_fast in Hff. rewrite He in Hff.
  destruct Hff as [(tr & call & Htr & Hnone)|[[] _]].
  split; [|by exists tr, call].
  by rewrite Htr, failures_app, Hnone.
Qed.

(** X6: The crawl retries nothing and goes no further than a failure: on every
    platform a run that returns has seen no request fail, and a run that
    raises either ends on the one request that failed, with its exception,
    or raises [AttributeError] without a failed request; that is what it does
    once the guild is available when the incidents channel is not in the
    cache: it stops after the barrier and asks for no history. *)
Theorem crawl_incidents_aborts_on_failure (c : Config) (S : Type)
    (P : Platform S) (s : S) (w : World) :
  fails_fast (eq AttributeError) (exec P (crawl_incidents c) s w) /\
  (forall s0 w0,
     P wait_until_guild_available s w = (inr tt, s0, w0) ->
     Channels_incidents c ∉ cached_channels w0 ->
     exec P (crawl_incidents c) s w =
       {| trace := [EvCall wait_until_guild_available;
                    EvDone wait_until_guild_available None];
          outcome := inl AttributeError;
          final_state := s0; final_world := w0 |}).
Proof.
  split.
  - unfold crawl_incidents, mbind, Prog_bind.
    apply fails_fast_bind; [apply (fails_fast_await P (eq AttributeError))|].
    intros _ s0 w0.
    apply fails_fast_bind; [done|]. intros [channel|] s1 w1.
    + apply fails_fast_bind;
        [exact (fails_fast_await P (eq AttributeError)
                  (history channel crawl_limit) s1 w1)|].
      intros messages s2 w2. apply fails_fast_crawl_loop.
    + right. done.
  - intros s0 w0 Hwait Hchannel.
    unfold crawl_incidents, mbind, Prog_bind. cbn [await bind exec].
    rewrite Hwait. cbn [bind exec]. unfold get_channel.
    by rewrite bool_decide_eq_false_2.
Qed.

(** ** What the crawl leaves behind *)

Lemma add_signals_untouched {S : Type} (P : Platform S) (c : Config)
    (all : list MsgRef) (incident other : MsgRef) (s : S) (w : World) :
  history_undisturbed P all -> other ∈ all -> other <> incident ->
  objects (final_world (exec P (add_signals c incident) s w)) other
  = objects w other.
Proof.
  intros Hund Hin Hne. rewrite add_signals_await_each.
  apply (await_each_undisturbed P all); [done| |done].
  apply Forall_fmap, Forall_true. intros e. cbn [disturbs compose]. congruence.
Qed.

Lemma crawl_loop_untouched {S : Type} (P : Platform S) (c : Config)
    (all messages : list MsgRef) (other : MsgRef) (s : S) (w : World) :
  history_undisturbed P all -> other ∈ all -> other ∉ messages ->
  objects (final_world (exec P (crawl_loop c messages) s w)) other
  = objects w other.
Proof.
  intros Hund Hin. revert s w.
  induction messages as [|message rest IH]; intros s w Hout; [done|].
  apply not_elem_of_cons in Hout as [Hne Hout].
  rewrite exec_crawl_loop_cons.
  destruct (needs_signals c (objects w message)); [|by apply IH].
  cbv zeta.
  pose proof (add_signals_untouched P c all message other s w Hund Hin Hne)
    as Hfirst.
  destruct (exec P (add_signals c message) s w) as [tr [e|[]] s' w'];
    cbn [outcome trace final_state final_world] in *; [done|].
  pose proof (Hund (sleep 2) s' w' other Hin (fun F => F)) as Hpause.
  destruct (P (sleep 2) s' w') as [[[e|x] s''] w''];
    cbn [fst snd after final_world] in *; [congruence|].
  rewrite IH by done. congruence.
Qed.

Lemma crawl_loop_completes {S : Type} (P : Platform S) (c : Config)
    (messages : list MsgRef) (s : S) (w : World) :
  records_reactions P -> NoDup messages -> history_undisturbed P messages ->
  outcome (exec P (crawl_loop c messages) s w) = inr tt ->
  forall message, message ∈ messages ->
    needs_signals c
      (objects (final_world (exec P (crawl_loop c messages) s w)) message)
    = false.
Proof.
  intros Hrec. revert s w.
  induction messages as [|message rest IH]; intros s w Hnd Hund Hok m Hm;
    [by apply elem_of_nil in Hm|].
  apply NoDup_cons in Hnd as [Hfresh Hnd].
  assert (history_undisturbed P rest) as Hund'.
  { intros call s0 w0 m0 Hm0. apply Hund. by right. }
  assert (message ∈ message :: rest) as Hhead by left.
  revert Hok. rewrite exec_crawl_loop_cons.
  destruct (needs_signals c (objects w message)) eqn:Hneeds.
  - cbv zeta.
    pose proof (add_signals_completes P c message s w Hrec) as Hdone.
    destruct (exec P (add_signals c message) s w) as [tr [e|[]] s' w'];
      cbn [outcome trace final_state final_world] in *; [done|].
    specialize (Hdone eq_refl).
    pose proof (Hund (sleep 2) s' w' message Hhead (fun F => F)) as Hpause.
    destruct (P (sleep 2) s' w') as [[[e|x] s''] w''];
      cbn [fst snd after outcome final_world] in *; [done|].
    intros Hok. apply elem_of_cons in Hm as [->|Hm]; [|by apply IH].
    rewrite (crawl_loop_untouched P c (message :: rest)) by done.
    unfold needs_signals. by rewrite Hpause, Hdone, andb_false_r.
  - intros Hok. apply elem_of_cons in Hm as [->|Hm]; [|by apply IH].
    by rewrite (crawl_loop_untouched P c (message :: rest)).
Qed.

Lemma crawl_requests_nil (c : Config) (w : World) (messages : list MsgRef) :
  (forall message, message ∈ messages ->
     needs_signals c (objects w message) = false) ->
  crawl_requests c w messages = [].
Proof.
  induction messages as [|message rest IH]; intros Hall; [done|].
  rewrite crawl_requests_cons, (Hall message) by left. cbn [app].
  apply IH. intros m Hm. apply Hall. by right.
Qed.

(** X7: A crawl that returns has done its work: on a platform that records the
    bot's reactions and leaves the history undisturbed, when the crawl
    returns no message of the history it was given is an incident without
    all its signals, so going over the same history again would request
    nothing. *)
Theorem crawl_incidents_completes (c : Config) (S : Type) (P : Platform S)
    (s s0 s1 : S) (w w0 w1 : World) (messages : list MsgRef) :
  P wait_until_guild_available s w = (inr tt, s0, w0) ->
  Channels_incidents c ∈ cached_channels w0 ->
  P (history (Channels_incidents c) 50) s0 w0 = (inr messages, s1, w1) ->
  NoDup messages ->
  history_undisturbed P messages ->
  records_reactions P ->
  let run := exec P (crawl_incidents c) s w in
  outcome run = inr tt ->
  (forall message, message ∈ messages ->
     needs_signals c (objects (final_world run) message) = false) /\
  crawl_requests c (final_world run) messages = [] /\
  trace (exec P (crawl_loop c messages) (final_state run) (final_world run)) = [].
Proof.
  intros Hwait Hchannel Hhistory Hnd Hund Hrec run Hok.
  assert (run =
    after [EvCall wait_until_guild_available;
           EvDone wait_until_guild_available None;
           EvCall (history (Channels_incidents c) 50);
           EvDone (history (Channels_incidents c) 50) None]
      (exec P (crawl_loop c messages) s1 w1)) as Hrun.
  { subst run. unfold crawl_incidents, mbind, Prog_bind, crawl_limit.
    cbn [await bind exec]. rewrite Hwait. cbn [bind exec].
    unfold get_channel. rewrite bool_decide_eq_true_2 by done.
    cbn [bind exec]. rewrite Hhistory. cbn [bind failure_of].
    by rewrite after_app. }
  assert (forall message, message ∈ messages ->
            needs_signals c (objects (final_world run) message) = false)
    as Hall.
  { rewrite Hrun in Hok |- *. cbn [after outcome final_world] in *.
    by apply crawl_loop_completes. }
  split; [done|]. split; [by apply crawl_requests_nil|].
  rewrite (crawl_loop_await_each P c (final_world run)) by done.
  by rewrite crawl_requests_nil.
Qed.

(** X8: When the listener returns on a platform that records the bot's
    reactions, the message it was given is not an incident without all its
    signals. *)
Theorem on_message_completes (c : Config) (S : Type) (P : Platform S)
    (message : MsgRef) (s : S) (w : World) :
  records_reactions P ->
  let run := exec P (on_message c message) s w in
  outcome run = inr tt ->
  needs_signals c (objects (final_world run) message) = false.
Proof.
  intros Hrec run. subst run.
  unfold on_message, inspect, mbind, Prog_bind, needs_signals. cbn [bind exec].
  destruct (is_incident c (objects w message)) eqn:Hinc.
  - intros Hok. by rewrite (add_signals_completes P c message s w Hrec Hok),
                          andb_false_r.
  - intros _. cbn [exec final_world]. by rewrite Hinc.
Qed.

(** ** What [resolve_message] tells its caller *)

(** The run of [resolve_message], whatever the barrier and the fetch do. *)
Lemma exec_resolve_message {S : Type} (P : Platform S) (c : Config) (id : Z)
    (s : S) (w : World) :
  exec P (resolve_message c id) s w =
  let barrier := P wait_until_guild_available s w in
  let fetch :=
    P (fetch_message (Channels_incidents c) id) barrier.1.2 barrier.2 in
  after [EvCall wait_until_guild_available;
         EvDone wait_until_guild_available (failure_of barrier.1.1)]
    match barrier.1.1 with
    | inl e =>
        {| trace := []; outcome := inl e;
           final_state := barrier.1.2; final_world := barrier.2 |}
    | inr _ =>
        match _get_message barrier.2 id with
        | Some found =>
            {| trace := []; outcome := inr (Some found);
               final_state := barrier.1.2; final_world := barrier.2 |}
        | None =>
            if bool_decide (Channels_incidents c ∈ cached_channels barrier.2)
            then
              {| trace :=
                   [EvCall (fetch_message (Channels_incidents c) id);
                    EvDone (fetch_message (Channels_incidents c) id)
                           (failure_of fetch.1.1)];
                 outcome :=
                   match fetch.1.1 with
                   | inr fetched => inr (Some fetched)
                   | inl e => if isinstance_Exception e then inr None else inl e
                   end;
                 final_state := fetch.1.2; final_world := fetch.2 |}
            else
              {| trace := []; outcome := inr None;
                 final_state := barrier.1.2; final_world := barrier.2 |}
        end
    end.
Proof.
  unfold resolve_message, mbind, Prog_bind. cbn [await bind exec].
  destruct (P wait_until_guild_available s w) as [[[e|[]] s0] w0];
    cbn [bind exec fst snd]; [done|].
  destruct (_get_message w0 id) as [found|]; [done|].
  cbn [bind try_except exec]. unfold get_channel.
  case_bool_decide; cbn [bind await try_except exec isinstance_Exception];
    [|done].
  destruct (P (fetch_message (Channels_incidents c) id) s0 w0)
    as [[[e|fetched] s1] w1]; cbn [try_except exec fst snd failure_of after app];
    [|done].
  by destruct (isinstance_Exception e).
Qed.

(** X9: [resolve_message] raises [e] in exactly two cases: the readiness barrier
    raised [e], which no handler covers, whatever [e] is; or the message was
    not in the cache, the channel was resolved and the fetch raised [e], an
    exception that is not an [Exception]. *)
Theorem resolve_message_raises_iff (c : Config) (S : Type) (P : Platform S)
    (id : Z) (s : S) (w : World) (e : Exn) :
  let barrier := P wait_until_guild_available s w in
  let fetch :=
    P (fetch_message (Channels_incidents c) id) barrier.1.2 barrier.2 in
  outcome (exec P (resolve_message c id) s w) = inl e <->
  barrier.1.1 = inl e \/
  (barrier.1.1 = inr tt /\
   _get_message barrier.2 id = None /\
   Channels_incidents c ∈ cached_channels barrier.2 /\
   fetch.1.1 = inl e /\
   isinstance_Exception e = false).
Proof.
  intros barrier fetch. rewrite exec_resolve_message. cbv zeta.
  fold barrier. fold fetch. cbn [after outcome].
  destruct (barrier.1.1) as [e0|[]]; cbn [outcome].
  { split; [intros [= ->]; by left | intros [[= ->]|(? & _)]; done]. }
  destruct (_get_message barrier.2 id) as [found|]; cbn [outcome].
  { split; [done | intros [?|(_ & ? & _)]; done]. }
  case_bool_decide as Hchannel; cbn [outcome].
  - destruct (fetch.1.1) as [e1|fetched].
    + destruct (isinstance_Exception e1) eqn:He1.
      * split; [done|]. intros [?|(_ & _ & _ & [= ->] & ?)]; [done|congruence].
      * split; [intros [= ->]; right; done|].
        intros [?|(_ & _ & _ & [= ->] & _)]; done.
    + split; [done | intros [?|(_ & _ & _ & ? & _)]; done].
  - split; [done | intros [?|(_ & _ & ? & _)]; done].
Qed.

(** X10: Once the guild is available, what [resolve_message] returns tells the
    caller where it comes from: a message is the one the cache holds for the
    identifier or, when the cache holds none, the one the fetch on the
    incidents channel gave; [None] means that the cache holds none and that
    the channel was not resolved or the fetch raised an [Exception]. *)
Theorem resolve_message_result (c : Config) (S : Type) (P : Platform S)
    (id : Z) (s s0 : S) (w w0 : World) :
  P wait_until_guild_available s w = (inr tt, s0, w0) ->
  let run := exec P (resolve_message c id) s w in
  let fetch := P (fetch_message (Channels_incidents c) id) s0 w0 in
  (forall found,
     outcome run = inr (Some found) <->
     _get_message w0 id = Some found \/
     (_get_message w0 id = None /\
      Channels_incidents c ∈ cached_channels w0 /\
      fetch.1.1 = inr found)) /\
  (outcome run = inr None <->
   _get_message w0 id = None /\
   (Channels_incidents c ∉ cached_channels w0 \/
    exists e, fetch.1.1 = inl e /\ isinstance_Exception e = true)).
Proof.
  intros Hwait run fetch. subst run. rewrite exec_resolve_message. cbv zeta.
  rewrite Hwait. cbn [fst snd after outcome]. fold fetch.
  destruct (_get_message w0 id) as [cached|]; cbn [outcome].
  { split.
    - intros found. split; [intros [= ->]; by left|].
      intros [[= ->]|(? & _)]; done.
    - split; [done | intros (? & _); done]. }
  case_bool_decide as Hchannel; cbn [outcome].
  - destruct (fetch.1.1) as [e|fetched].
    + destruct (isinstance_Exception e) eqn:He.
      * split.
        -- intros found. split; [done|]. intros [?|(_ & _ & ?)]; done.
        -- split; [intros _; split; [done|]; right; by exists e | done].
      * split.
        -- intros found. split; [done|]. intros [?|(_ & _ & ?)]; done.
        -- split; [done|]. intros (_ & [?|(e' & [= <-] & ?)]); [done|congruence].
    + split.
      * intros found. split; [intros [= ->]; right; done|].
        intros [?|(_ & _ & [= ->])]; done.
      * split; [done|]. intros (_ & [?|(e' & ? & _)]); done.
  - split.
    + intros found. split; [done|]. intros [?|(_ & ? & _)]; done.
    + split; [intros _; split; [done|]; by left | done].
Qed.

(** X11: On every platform [resolve_message] issues the barrier and nothing else,
    or the barrier and then one fetch of the identifier on the incidents
    channel, whatever channel the message is in; it fetches only when the
    cache holds no message for the identifier. *)
Theorem resolve_message_requests (c : Config) (S : Type) (P : Platform S)
    (id : Z) (s : S) (w : World) :
  let run := exec P (resolve_message c id) s w in
  let fetch := fetch_message (Channels_incidents c) id in
  (issued (trace run) = [wait_until_guild_available] \/
   issued (trace run) = [wait_until_guild_available; fetch]) /\
  (fetch ∈ issued (trace run) ->
   _get_message (P wait_until_guild_available s w).2 id = None).
Proof.
  intros run fetch. subst run. rewrite exec_resolve_message. cbv zeta.
  cbn [after trace app issued].
  destruct ((P wait_until_guild_available s w).1.1) as [e|[]];
    cbn [trace issued].
  { split; [by left|]. by intros ?%list_elem_of_singleton. }
  destruct (_get_message (P wait_until_guild_available s w).2 id) as [found|];
    cbn [trace issued].
  { split; [by left|]. by intros ?%list_elem_of_singleton. }
  split; [|done].
  case_bool_decide; cbn [trace issued]; [by right | by left].
Qed.

(** ** The crawl and the listener *)

Lemma add_signals_nothing_to_do {S : Type} (P : Platform S) (c : Config)
    (incident : MsgRef) (s : S) (w : World) :
  has_signals c (objects w incident) = true ->
  exec P (add_signals c incident) s w =
    {| trace := []; outcome := inr tt; final_state := s; final_world := w |}.
Proof.
  intros Hhas. apply missing_emoji_nil in Hhas.
  by rewrite add_signals_await_each, Hhas.
Qed.

Lemma exec_on_message {S : Type} (P : Platform S) (c : Config)
    (message : MsgRef) (s : S) (w : World) :
  exec P (on_message c message) s w =
  if is_incident c (objects w message)
  then exec P (add_signals c message) s w
  else {| trace := []; outcome := inr tt; final_state := s; final_world := w |}.
Proof.
  unfold on_message, inspect, mbind, Prog_bind. cbn [bind exec].
  by destruct (is_incident c (objects w message)).
Qed.

(** X12: One round of the crawl is the listener followed by the delay: on every
    platform, for a message that is an incident without all its signals the
    crawl does what the listener does on it and then sleeps, and for any
    other message both do nothing; the crawl's test of [has_signals] saves
    the delay and no request. *)
Theorem crawl_round_is_listener_then_delay (c : Config) (S : Type)
    (P : Platform S) (message : MsgRef) (s : S) (w : World) :
  exec P (crawl_loop c [message]) s w =
    (if needs_signals c (objects w message)
     then exec P (bind (on_message c message) (fun _ => await (sleep 2))) s w
     else exec P (on_message c message) s w) /\
  (needs_signals c (objects w message) = false ->
   exec P (on_message c message) s w =
     {| trace := []; outcome := inr tt; final_state := s; final_world := w |}).
Proof.
  assert (needs_signals c (objects w message) = false ->
          exec P (on_message c message) s w =
          {| trace := []; outcome := inr tt;
             final_state := s; final_world := w |}) as Hidle.
  { unfold needs_signals. rewrite exec_on_message.
    destruct (is_incident c (objects w message)); [|done].
    cbn [andb]. intros Hhas%negb_false_iff.
    by apply add_signals_nothing_to_do. }
  split; [|done].
  rewrite exec_crawl_loop_cons.
  destruct (needs_signals c (objects w message)) eqn:Hneeds;
    [|by rewrite Hidle].
  cbv zeta. rewrite exec_bind, exec_on_message.
  unfold needs_signals in Hneeds. apply andb_true_iff in Hneeds as [-> _].
  destruct (exec P (add_signals c message) s w) as [tr [e|[]] s' w'];
    cbn [outcome trace final_state final_world]; [done|].
  cbn [await exec].
  destruct (P (sleep 2) s' w') as [[[e|[]] s''] w''];
    cbn [fst snd exec crawl_loop]; by rewrite <- after_app.
Qed.

(** ** Where the crawl reacts *)

Lemma add_signals_issued_allowed {S : Type} (P : Platform S) (c : Config)
    (incident : MsgRef) (s : S) (w : World) (call : Call) :
  call ∈ issued (trace (exec P (add_signals c incident) s w)) ->
  exists e, call = add_reaction incident e /\ e ∈ ALLOWED_EMOJI c.
Proof.
  rewrite add_signals_await_each. intros Hcall.
  destruct (await_each_issued_prefix P
              (map (add_reaction incident)
                   (missing_emoji c (own_reactions (objects w incident)))) s w)
    as [rest Hrest].
  assert (call ∈ map (add_reaction incident)
                    (missing_emoji c (own_reactions (objects w incident))))
    as Hin by (rewrite Hrest; apply elem_of_app; by left).
  apply list_elem_of_fmap in Hin as (e & -> & He).
  apply elem_of_missing_emoji in He as [He _]. by exists e.
Qed.

Lemma crawl_loop_issued_within {S : Type} (P : Platform S) (c : Config)
    (messages : list MsgRef) (s : S) (w : World) (call : Call) :
  call ∈ issued (trace (exec P (crawl_loop c messages) s w)) ->
  call = sleep 2 \/
  exists message e,
    call = add_reaction message e /\ message ∈ messages /\ e ∈ ALLOWED_EMOJI c.
Proof.
  revert s w. induction messages as [|message rest IH]; intros s w.
  { by intros ?%elem_of_nil. }
  assert (forall s' w',
            call ∈ issued (trace (exec P (crawl_loop c rest) s' w')) ->
            call = sleep 2 \/
            exists m e, call = add_reaction m e /\ m ∈ message :: rest
                        /\ e ∈ ALLOWED_EMOJI c) as IH'.
  { intros s' w' [->|(m & e & -> & Hm & He)]%IH; [by left|].
    right. exists m, e. repeat split; [by right|done]. }
  rewrite exec_crawl_loop_cons.
  destruct (needs_signals c (objects w message)); [|apply IH'].
  cbv zeta.
  pose proof (add_signals_issued_allowed P c message s w call) as Hfirst.
  destruct (exec P (add_signals c message) s w) as [tr [e|[]] s' w'];
    cbn [outcome trace final_state final_world] in *.
  - intros (e' & -> & He')%Hfirst. right. exists message, e'.
    repeat split; [left|done].
  - destruct (P (sleep 2) s' w') as [[[e|x] s''] w''];
      cbn [fst snd after trace]; rewrite !issued_app; cbn [issued];
      rewrite ?app_nil_r, !elem_of_app, list_elem_of_singleton.
    + intros [(e' & -> & He')%Hfirst| ->]; [|by left].
      right. exists message, e'. repeat split; [left|done].
    + intros [[(e' & -> & He')%Hfirst| ->]|Hrest]; [|by left|by eapply IH'].
      right. exists message, e'. repeat split; [left|done].
Qed.

(** X13: The crawl reacts only within the history it was given and only with the
    signal emoji: whatever the platform does afterwards, every request of the
    crawl is the barrier, the history, a delay of 2 seconds, or one of the
    allowed emoji added to a message of that history. *)
Theorem crawl_incidents_reacts_within_history (c : Config) (S : Type)
    (P : Platform S) (s s0 s1 : S) (w w0 w1 : World) (messages : list MsgRef)
    (call : Call) :
  P wait_until_guild_available s w = (inr tt, s0, w0) ->
  Channels_incidents c ∈ cached_channels w0 ->
  P (history (Channels_incidents c) 50) s0 w0 = (inr messages, s1, w1) ->
  call ∈ issued (trace (exec P (crawl_incidents c) s w)) ->
  call = wait_until_guild_available \/
  call = history (Channels_incidents c) 50 \/
  call = sleep 2 \/
  exists message e,
    call = add_reaction message e /\ message ∈ messages /\ e ∈ ALLOWED_EMOJI c.
Proof.
  intros Hwait Hchannel Hhistory.
  unfold crawl_incidents, mbind, Prog_bind, crawl_limit.
  cbn [await bind exec]. rewrite Hwait. cbn [bind exec].
  unfold get_channel. rewrite bool_decide_eq_true_2 by done.
  cbn [bind exec]. rewrite Hhistory. cbn [bind after trace app issued].
  intros [->|[->|Hloop]%elem_of_cons]%elem_of_cons; [by left|by right; left|].
  right; right. by apply (crawl_loop_issued_within P c messages s1 w1).
Qed.

(** ** The further properties on the example *)

Lemma simulate_within_limit_honours : honours_limit simulate_within_limit.
Proof.
  intros channel limit s s' w w' messages H. cbn [simulate_within_limit] in H.
  injection H as <- _ _. rewrite length_take. lia.
Qed.

(** Somebody else's reaction with a signal emoji gives the message no signal. *)
Lemma has_signals_three_emoji_witness :
  (forall r, r ∈ reactions example_message_others -> me r = false) /\
  has_signals example_config example_message_others = false.
Proof.
  assert (forall r, r ∈ reactions example_message_others -> me r = false)
    as Hothers.
  { intros r Hr. apply list_elem_of_singleton in Hr. rewrite Hr. reflexivity. }
  split; [exact Hothers|].
  apply (has_signals_three_emoji example_config example_message_others), Hothers.
Defined.

(** On the second message of the example, which has its signals,
    [add_signals] does nothing. *)
Lemma add_signals_silent_iff_has_signals_witness :
  has_signals example_config (objects example_world 1%nat) = true /\
  exec (simulate true) (add_signals example_config 1%nat) example_sim example_world
  = {| trace := []; outcome := inr tt;
       final_state := example_sim; final_world := example_world |}.
Proof.
  split; [reflexivity|].
  apply (add_signals_silent_iff_has_signals example_config Sim (simulate true)
           1%nat example_sim example_world).
  reflexivity.
Defined.

(** The crawl of the example stays under the bound. *)
Lemma crawl_incidents_at_most_202_requests_witness :
  honours_limit simulate_within_limit /\
  (length (issued (trace (exec simulate_within_limit
                            (crawl_incidents example_config)
                            example_sim example_world))) <= 202)%nat.
Proof.
  split; [exact simulate_within_limit_honours|].
  apply (crawl_incidents_at_most_202_requests example_config Sim
           simulate_within_limit example_sim example_world
           simulate_within_limit_honours).
Defined.

(** When the second signal is refused, [add_signals] raises what the platform
    raised and that is the only failure of the run. *)
Lemma add_signals_raises_first_failure_witness :
  outcome (exec (simulate true) (add_signals example_config 5%nat)
             example_sim_rejecting example_world) = inl Forbidden /\
  failures (trace (exec (simulate true) (add_signals example_config 5%nat)
                     example_sim_rejecting example_world)) = [Forbidden].
Proof.
  split; [reflexivity|].
  destruct (add_signals_raises_first_failure example_config Sim (simulate true)
              5%nat example_sim_rejecting example_world) as [_ Hraise].
  destruct (Hraise Forbidden eq_refl) as [Hfail _]. exact Hfail.
Defined.

(** Without the channel in the cache the crawl raises after the barrier. *)
Lemma crawl_incidents_aborts_on_failure_witness :
  (Channels_incidents example_config
     ∉ cached_channels example_world_no_channel) /\
  outcome (exec (simulate true) (crawl_incidents example_config)
             example_sim example_world_no_channel) = inl AttributeError.
Proof.
  assert (Channels_incidents example_config
            ∉ cached_channels example_world_no_channel) as Hchannel
    by (apply (bool_decide_unpack _); vm_compute; exact I).
  split; [exact Hchannel|].
  destruct (crawl_incidents_aborts_on_failure example_config Sim (simulate true)
              example_sim example_world_no_channel) as [_ Hrun].
  rewrite (Hrun example_sim example_world_no_channel eq_refl Hchannel).
  reflexivity.
Defined.

(** After the crawl of the example no message of the history needs signals. *)
Lemma crawl_incidents_completes_witness :
  outcome (exec (simulate true) (crawl_incidents example_config)
             example_sim example_world) = inr tt /\
  crawl_requests example_config
    (final_world (exec (simulate true) (crawl_incidents example_config)
                    example_sim example_world))
    [0%nat; 1%nat; 2%nat; 3%nat; 4%nat] = [].
Proof.
  assert (NoDup [0%nat; 1%nat; 2%nat; 3%nat; 4%nat]) as Hnd
    by (apply (bool_decide_unpack _); vm_compute; exact I).
  assert (Channels_incidents example_config ∈ cached_channels example_world)
    as Hchannel by (apply (bool_decide_unpack _); vm_compute; exact I).
  split; [reflexivity|].
  destruct (crawl_incidents_completes example_config Sim (simulate true)
              example_sim example_sim example_sim
              example_world example_world example_world
              [0%nat; 1%nat; 2%nat; 3%nat; 4%nat]
              eq_refl Hchannel eq_refl Hnd (simulate_undisturbed true _)
              simulate_records eq_refl)
    as (_ & Hnone & _).
  exact Hnone.
Defined.

(** After the listener has run on the third message it needs no signal. *)
Lemma on_message_completes_witness :
  records_reactions (simulate true) /\
  needs_signals example_config (objects example_world 2%nat) = true /\
  needs_signals example_config
    (objects (final_world (exec (simulate true) (on_message example_config 2%nat)
                             example_sim example_world)) 2%nat) = false.
Proof.
  split; [exact simulate_records|]. split; [reflexivity|].
  apply (on_message_completes example_config Sim (simulate true) 2%nat
           example_sim example_world simulate_records).
  reflexivity.
Defined.

(** A message that is not found: [None] with the cache empty for the
    identifier and the fetch raising an [Exception]. *)
Lemma resolve_message_result_witness :
  outcome (exec (simulate true) (resolve_message example_config 999)
             example_sim example_world) = inr None /\
  _get_message example_world 999 = None.
Proof.
  destruct (resolve_message_result example_config Sim (simulate true) 999
              example_sim example_sim example_world example_world eq_refl)
    as [_ Hnone].
  assert (outcome (exec (simulate true) (resolve_message example_config 999)
                     example_sim example_world) = inr None) as Hrun
    by reflexivity.
  split; [exact Hrun|].
  destruct (proj1 Hnone Hrun) as [Hmiss _]. exact Hmiss.
Defined.

(** The fetch of an identifier means that the cache had no message for it. *)
Lemma resolve_message_requests_witness :
  fetch_message 7 999
    ∈ issued (trace (exec (simulate true) (resolve_message example_config 999)
                       example_sim example_world)) /\
  _get_message example_world 999 = None.
Proof.
  assert (fetch_message 7 999
            ∈ issued (trace (exec (simulate true)
                               (resolve_message example_config 999)
                               example_sim example_world))) as Hfetch
    by (vm_compute; constructor; constructor).
  split; [exact Hfetch|].
  destruct (resolve_message_requests example_config Sim (simulate true) 999
              example_sim example_world) as [_ Hmiss].
  exact (Hmiss Hfetch).
Defined.

(** On the pinned header of the example the listener does nothing. *)
Lemma crawl_round_is_listener_then_delay_witness :
  needs_signals example_config (objects example_world 3%nat) = false /\
  exec (simulate true) (on_message example_config 3%nat) example_sim example_world
  = {| trace := []; outcome := inr tt;
       final_state := example_sim; final_world := example_world |}.
Proof.
  split; [reflexivity|].
  apply (crawl_round_is_listener_then_delay example_config Sim (simulate true)
           3%nat example_sim example_world).
  reflexivity.
Defined.

(** The reaction the crawl of the example adds is on a message of the
    history. *)
Lemma crawl_incidents_reacts_within_history_witness :
  add_reaction 2%nat "investigating"
    ∈ issued (trace (exec (simulate true) (crawl_incidents example_config)
                       example_sim example_world)) /\
  (add_reaction 2%nat "investigating" = wait_until_guild_available \/
   add_reaction 2%nat "investigating" = history 7 50 \/
   add_reaction 2%nat "investigating" = sleep 2 \/
   exists message e,
     add_reaction 2%nat "investigating" = add_reaction message e /\
     message ∈ [0%nat; 1%nat; 2%nat; 3%nat; 4%nat] /\
     e ∈ ALLOWED_EMOJI example_config).
Proof.
  assert (Channels_incidents example_config ∈ cached_channels example_world)
    as Hchannel by (apply (bool_decide_unpack _); vm_compute; exact I).
  assert (add_reaction 2%nat "investigating"
            ∈ issued (trace (exec (simulate true)
                               (crawl_incidents example_config)
                               example_sim example_world))) as Hcall
    by (vm_compute; do 2 constructor; constructor).
  split; [exact Hcall|].
  apply (crawl_incidents_reacts_within_history example_config Sim
           (simulate true) example_sim example_sim example_sim
           example_world example_world example_world
           [0%nat; 1%nat; 2%nat; 3%nat; 4%nat]
           (add_reaction 2%nat "investigating") eq_refl Hchannel eq_refl Hcall).
Defined.

